(** * SquashFS metadata pipeline: block headers, metadata cursor, inode resolver

    A shallow embedding of [sys/fs/squashfs/squashfs_block.c] and
    [sys/fs/squashfs/squashfs_inode.c].  C integers are [Z] values with the
    wrap-around of their type written out where the code stores them; the
    backing store is a finite list of bytes; every call of the backing read
    is recorded in a log that the functions thread through. *)

From Stdlib Require Import ZArith List Bool Lia.
From Stdlib Require Import Strings.Byte.
From coqutil Require Import Z.bitblast.
Import ListNotations.
Local Open Scope Z_scope.

(** ** Machine integers *)

Module CInt.

(** [uint16_t]. *)
Definition u16 (z : Z) : Z := z mod 2 ^ 16.
(** [uint32_t]. *)
Definition u32 (z : Z) : Z := z mod 2 ^ 32.
(** [uint64_t] and, on the LP64 kernels this driver is built for, [size_t]. *)
Definition u64 (z : Z) : Z := z mod 2 ^ 64.
(** [int]. *)
Definition s32 (z : Z) : Z := (z + 2 ^ 31) mod 2 ^ 32 - 2 ^ 31.
(** [off_t]. *)
Definition s64 (z : Z) : Z := (z + 2 ^ 63) mod 2 ^ 64 - 2 ^ 63.

End CInt.
Import CInt.

(** ** Constants of the on-disk format *)

(** Modelled from the spec: the macros of [squashfs.h], which is not among
    the sources.  Bit 15 of a metadata header and bit 24 of a data header are
    the uncompressed flags; a metadata block decompresses into 8192 bytes;
    0xFFFFFFFF is the "no xattr" sentinel; inode numbers start at 1. *)
Definition SQUASHFS_COMPRESSED_BIT : Z := Z.shiftl 1 15.
Definition SQUASHFS_COMPRESSED_BIT_BLOCK : Z := Z.shiftl 1 24.
Definition SQUASHFS_METADATA_SIZE : Z := 8192.
Definition SQUASHFS_INVALID_XATTR : Z := 0xffffffff.
Definition SQUASHFS_INODE_MIN_COUNT : Z := 1.

(** Modelled from the spec: the fourteen on-disk inode type codes of
    [squashfs.h] (seven compact, seven extended) and the closed valid range. *)
Definition SQUASHFS_DIR_TYPE : Z := 1.
Definition SQUASHFS_REG_TYPE : Z := 2.
Definition SQUASHFS_SYMLINK_TYPE : Z := 3.
Definition SQUASHFS_BLKDEV_TYPE : Z := 4.
Definition SQUASHFS_CHRDEV_TYPE : Z := 5.
Definition SQUASHFS_FIFO_TYPE : Z := 6.
Definition SQUASHFS_SOCKET_TYPE : Z := 7.
Definition SQUASHFS_LDIR_TYPE : Z := 8.
Definition SQUASHFS_LREG_TYPE : Z := 9.
Definition SQUASHFS_LSYMLINK_TYPE : Z := 10.
Definition SQUASHFS_LBLKDEV_TYPE : Z := 11.
Definition SQUASHFS_LCHRDEV_TYPE : Z := 12.
Definition SQUASHFS_LFIFO_TYPE : Z := 13.
Definition SQUASHFS_LSOCKET_TYPE : Z := 14.
Definition SQUASHFS_TYPE_MIN_VALID : Z := SQUASHFS_DIR_TYPE.
Definition SQUASHFS_TYPE_MAX_VALID : Z := SQUASHFS_LSOCKET_TYPE.

(** ** Block headers (squashfs_block.c) *)

(** [sqsh_metadata_header]: [hdr] is a [uint16_t]; the two out-parameters
    are returned as a pair [(compressed, size)]. *)
Definition sqsh_metadata_header (hdr : Z) : bool * Z :=
  let compressed := Z.land hdr SQUASHFS_COMPRESSED_BIT =? 0 in
  let size := u16 (Z.land hdr (Z.lnot SQUASHFS_COMPRESSED_BIT)) in
  let size := if size =? 0 then u16 SQUASHFS_COMPRESSED_BIT else size in
  (compressed, size).

(** [sqsh_data_header]: [hdr] is a [uint32_t]. *)
Definition sqsh_data_header (hdr : Z) : bool * Z :=
  let compressed := Z.land hdr SQUASHFS_COMPRESSED_BIT_BLOCK =? 0 in
  let size := u32 (Z.land hdr (Z.lnot SQUASHFS_COMPRESSED_BIT_BLOCK)) in
  (compressed, size).

(** ** Device numbers (squashfs_inode.c, [sqsh_init_dev_inode] and
    [sqsh_init_ldev_inode]) *)

(** The two right-hand sides both decoders assign, after [le32toh], to the
    [int] fields [xtra.dev.major] and [xtra.dev.minor]. *)
Definition sqsh_dev_major (rdev : Z) : Z :=
  s32 (Z.land (Z.shiftr rdev 8) 0xfff).

Definition sqsh_dev_minor (rdev : Z) : Z :=
  s32 (Z.lor (Z.land rdev 0xff) (Z.land (Z.shiftr rdev 12) 0xfff00)).

(** The packing as the specification words it (the image writer's side;
    the driver only decodes). *)
Definition spec_rdev_pack (M m : Z) : Z :=
  Z.lor (Z.lor (Z.shiftl (Z.land M 0xFFF) 8) (Z.land m 0xFF))
        (Z.shiftl (Z.land m 0xFFF00) 12).

(** ** Bytes and little-endian fields *)

Definition byte_val (b : byte) : Z := Z.of_N (Byte.to_N b).

(** [le16toh], [le32toh] and [le64toh] applied to a field that [memcpy]
    filled from the image: the value of the field's bytes, least significant
    first. *)
Fixpoint le_combine (bs : list byte) : Z :=
  match bs with
  | [] => 0
  | b :: rest => byte_val b + 2 ^ 8 * le_combine rest
  end.

(** The field of [len] bytes at byte offset [off] of a record image. *)
Definition le_field (off len : nat) (raw : list byte) : Z :=
  le_combine (firstn len (skipn off raw)).

(** ** Errors, the read log and the monad the driver runs in *)

Inductive sqsh_err : Type := SQFS_OK | SQFS_ERR.

(** A request to the backing store: position and length. *)
Definition io_log : Type := list (Z * Z).

(** What a call produces: a value (the call returned [SQFS_OK]), the coarse
    error [SQFS_ERR], or [Fuel] when the iteration budget of the cursor loop
    ran out (shown not to happen, see [metadata_get_loop_fuel]). *)
Inductive res (A : Type) : Type :=
| Ret (a : A)
| Err
| Fuel.
Arguments Ret {A} a.
Arguments Err {A}.
Arguments Fuel {A}.

Definition M (A : Type) : Type := io_log -> res A * io_log.

Definition ret {A} (a : A) : M A := fun l => (Ret a, l).
Definition fail {A} : M A := fun l => (Err, l).
Definition out_of_fuel {A} : M A := fun l => (Fuel, l).
Definition bind {A B} (m : M A) (f : A -> M B) : M B :=
  fun l =>
    match m l with
    | (Ret a, l') => f a l'
    | (Err, l') => (Err, l')
    | (Fuel, l') => (Fuel, l')
    end.

Notation "x <- c1 ;; c2" := (bind c1 (fun x => c2))
  (at level 61, c1 at next level, right associativity).
Notation "' pat <- c1 ;; c2" :=
  (bind c1 (fun x => match x with pat => c2 end))
  (at level 61, pat pattern, c1 at next level, right associativity).

(** ** The mount *)

(** Modelled from the spec: the superblock fields the driver consumes
    ([struct sqsh_sb] is declared outside the sources): the total inode count
    and the data block size are 32-bit, the inode table base and the root
    inode id 64-bit. *)
Record sqsh_sb : Type := {
  sb_inodes : Z;
  sb_block_size : Z;
  sb_inode_table_start : Z;
  sb_root_inode : Z
}.

(** [struct sqsh_block]: the buffer and the size the reader recorded. *)
Record sqsh_block : Type := {
  b_data : list byte;
  b_size : Z
}.

(** [struct sqsh_block_run]: [block] is an [off_t], [offset] a [size_t]. *)
Record sqsh_block_run : Type := {
  block : Z;
  offset : Z
}.

(** Modelled from the spec: [struct sqsh_mount] with the backing store as the
    finite list of its bytes and the registry entry [ump->decompressor] as a
    function of the input bytes, their count and the output capacity that
    returns its status, the output buffer and the updated [*outsize]. *)
Record sqsh_mount : Type := {
  image : list byte;
  sb : sqsh_sb;
  decompressor : list byte -> Z -> Z -> sqsh_err * (list byte * Z)
}.

(** Modelled from the spec: [sqsh_io_read_buf] of squashfs_io.c (BackingIO,
    one positional read).  It delivers the bytes the store holds in
    [pos, pos + size); the count it returns is their number, so a read that
    starts before or runs past the store is short.  Each call is logged. *)
Definition backing_bytes (ump : sqsh_mount) (pos size : Z) : list byte :=
  if pos <? 0 then []
  else firstn (Z.to_nat size) (skipn (Z.to_nat pos) (image ump)).

Definition sqsh_io_read_buf (ump : sqsh_mount) (pos size : Z) : M (list byte) :=
  fun l => (Ret (backing_bytes ump pos size), l ++ [(pos, size)]).

(** ** Reading blocks (squashfs_block.c) *)

(** [sqsh_block_read].  Kernel [malloc] with [M_WAITOK] does not fail, so the
    three NULL branches are not taken. *)
Definition sqsh_block_read (ump : sqsh_mount) (pos : Z) (compressed : bool)
    (size outsize : Z) : M sqsh_block :=
  data <- sqsh_io_read_buf ump pos size ;;
  if negb (Z.of_nat (length data) =? size) then fail
  else if compressed then
    match decompressor ump data size outsize with
    | (SQFS_OK, (decomp, outsize')) =>
        ret {| b_data := decomp; b_size := u64 outsize' |}
    | (SQFS_ERR, _) => fail
    end
  else ret {| b_data := data; b_size := size |}.

(** [sqsh_metadata_read]: the pair is [( *data_size, *block)]. *)
Definition sqsh_metadata_read (ump : sqsh_mount) (pos : Z)
    : M (Z * sqsh_block) :=
  raw <- sqsh_io_read_buf ump pos 2 ;;
  if negb (Z.of_nat (length raw) =? 2) then fail
  else
    let pos := s64 (pos + 2) in
    let data_size := u64 (0 + 2) in
    let hdr := le_combine raw in
    let '(compressed, size) := sqsh_metadata_header hdr in
    blk <- sqsh_block_read ump pos compressed size SQUASHFS_METADATA_SIZE ;;
    ret (u64 (data_size + size), blk).

(** [sqsh_data_read]. *)
Definition sqsh_data_read (ump : sqsh_mount) (pos hdr : Z) : M sqsh_block :=
  let '(compressed, size) := sqsh_data_header hdr in
  sqsh_block_read ump pos compressed size (sb_block_size (sb ump)).

(** The variables of the loop of [sqsh_metadata_get]: [pos], [*cur], [size]
    and the bytes stored through [buf] so far. *)
Record get_state : Type := {
  g_pos : Z;
  g_cur : sqsh_block_run;
  g_size : Z;
  g_out : list byte
}.

(** [take] as the loop computes it: [block->size - cur->offset] in [size_t],
    clamped to the bytes still wanted. *)
Definition get_take (blk : sqsh_block) (st : get_state) : Z :=
  let take := u64 (b_size blk - offset (g_cur st)) in
  if take >? g_size st then g_size st else take.

(** The assignments of one iteration after its block was read.  [memcpy]
    copies what the buffer holds from [cur->offset] on, at most [take]
    bytes (reading past the buffer is undefined in C; the model stops at its
    end).  [buf] tells whether the destination is non-NULL. *)
Definition get_advance (buf : bool) (st : get_state) (data_size : Z)
    (blk : sqsh_block) : get_state :=
  let pos := s64 (g_pos st + data_size) in
  let take := get_take blk st in
  let out :=
    if buf
    then g_out st ++ firstn (Z.to_nat take)
                       (skipn (Z.to_nat (offset (g_cur st))) (b_data blk))
    else g_out st in
  let size := u64 (g_size st - take) in
  let off := u64 (offset (g_cur st) + take) in
  let cur :=
    if off =? b_size blk
    then {| block := pos; offset := 0 |}
    else {| block := block (g_cur st); offset := off |} in
  {| g_pos := pos; g_cur := cur; g_size := size; g_out := out |}.

(** The body of the [while] loop. *)
Definition metadata_get_body (ump : sqsh_mount) (buf : bool) (st : get_state)
    : M get_state :=
  '(data_size, blk) <- sqsh_metadata_read ump (g_pos st) ;;
  ret (get_advance buf st data_size blk).

(** [while (size > 0) body], with an iteration budget. *)
Fixpoint metadata_get_loop (ump : sqsh_mount) (buf : bool) (fuel : nat)
    (st : get_state) : M get_state :=
  if g_size st >? 0 then
    match fuel with
    | O => out_of_fuel
    | S fuel' =>
        st' <- metadata_get_body ump buf st ;;
        metadata_get_loop ump buf fuel' st'
    end
  else ret st.

Definition get_init (cur : sqsh_block_run) (size : Z) : get_state :=
  {| g_pos := block cur; g_cur := cur; g_size := size; g_out := [] |}.

(** [sqsh_metadata_get]: the updated [*cur] and the bytes stored through
    [buf].  Every iteration that does not fail moves [pos] forward inside the
    image, so one more iteration than the image has bytes is a budget the
    loop cannot use up. *)
Definition sqsh_metadata_get (ump : sqsh_mount) (cur : sqsh_block_run)
    (buf : bool) (size : Z) : M (sqsh_block_run * list byte) :=
  st <- metadata_get_loop ump buf (S (length (image ump))) (get_init cur size) ;;
  ret (g_cur st, g_out st).

(** ** Inodes (squashfs_inode.h, squashfs_inode.c) *)

(** [enum vtype] of the host kernel. *)
Inductive vtype : Type :=
| VNON | VREG | VDIR | VBLK | VCHR | VLNK | VSOCK | VFIFO | VBAD | VMARKER.

(** Modelled from the spec: the on-disk records of [squashfs.h], which is not
    among the sources.  Every variant record starts with the 16-byte base
    header; the fields follow in the order, and with the widths, in which the
    [swapendian_*] functions and the [le32toh] calls of the decoders convert
    them.  A record value holds the fields after conversion. *)
Record sqsh_base_inode : Type := {
  inode_type : Z;
  mode : Z;
  uid : Z;
  guid : Z;
  mtime : Z;
  inode_number : Z
}.

Record sqsh_reg_inode : Type := {
  reg_base : sqsh_base_inode;
  reg_start_block : Z;
  reg_fragment : Z;
  reg_offset : Z;
  reg_file_size : Z
}.

Record sqsh_lreg_inode : Type := {
  lreg_base : sqsh_base_inode;
  lreg_start_block : Z;
  lreg_file_size : Z;
  lreg_sparse : Z;
  lreg_nlink : Z;
  lreg_fragment : Z;
  lreg_offset : Z;
  lreg_xattr : Z
}.

Record sqsh_dir_inode : Type := {
  dir_base : sqsh_base_inode;
  dir_start_block : Z;
  dir_nlink : Z;
  dir_file_size : Z;
  dir_offset : Z;
  dir_parent_inode : Z
}.

Record sqsh_ldir_inode : Type := {
  ldir_base : sqsh_base_inode;
  ldir_nlink : Z;
  ldir_file_size : Z;
  ldir_start_block : Z;
  ldir_parent_inode : Z;
  ldir_i_count : Z;
  ldir_offset : Z;
  ldir_xattr : Z
}.

(** Modelled from the spec: [sizeof] of the records above (packed, so the sum
    of the field widths). *)
Definition sizeof_base_inode : Z := 16.
Definition sizeof_reg_inode : Z := 32.
Definition sizeof_lreg_inode : Z := 56.
Definition sizeof_dir_inode : Z := 32.
Definition sizeof_ldir_inode : Z := 40.
Definition sizeof_symlink_inode : Z := 24.
Definition sizeof_dev_inode : Z := 24.
Definition sizeof_ldev_inode : Z := 28.
Definition sizeof_ipc_inode : Z := 20.
Definition sizeof_lipc_inode : Z := 24.

(** Modelled from the spec: where the decoders without a [swapendian_*]
    function find their fields: [nlink] right after the base header, then
    [symlink_size] (symlink), [rdev] (devices), [xattr] last. *)
Definition symlink_nlink (raw : list byte) : Z := le_field 16 4 raw.
Definition symlink_symlink_size (raw : list byte) : Z := le_field 20 4 raw.
Definition dev_nlink (raw : list byte) : Z := le_field 16 4 raw.
Definition dev_rdev (raw : list byte) : Z := le_field 20 4 raw.
Definition ldev_xattr (raw : list byte) : Z := le_field 24 4 raw.
Definition ipc_nlink (raw : list byte) : Z := le_field 16 4 raw.
Definition lipc_xattr (raw : list byte) : Z := le_field 20 4 raw.

(** The [swapendian_*] functions, applied to the image [memcpy] stored. *)
Definition swapendian_base_inode (raw : list byte) : sqsh_base_inode :=
  {| inode_type := le_field 0 2 raw;
     mode := le_field 2 2 raw;
     uid := le_field 4 2 raw;
     guid := le_field 6 2 raw;
     mtime := le_field 8 4 raw;
     inode_number := le_field 12 4 raw |}.

Definition swapendian_reg_inode (raw : list byte) : sqsh_reg_inode :=
  {| reg_base := swapendian_base_inode raw;
     reg_start_block := le_field 16 4 raw;
     reg_fragment := le_field 20 4 raw;
     reg_offset := le_field 24 4 raw;
     reg_file_size := le_field 28 4 raw |}.

Definition swapendian_lreg_inode (raw : list byte) : sqsh_lreg_inode :=
  {| lreg_base := swapendian_base_inode raw;
     lreg_start_block := le_field 16 8 raw;
     lreg_file_size := le_field 24 8 raw;
     lreg_sparse := le_field 32 8 raw;
     lreg_nlink := le_field 40 4 raw;
     lreg_fragment := le_field 44 4 raw;
     lreg_offset := le_field 48 4 raw;
     lreg_xattr := le_field 52 4 raw |}.

Definition swapendian_dir_inode (raw : list byte) : sqsh_dir_inode :=
  {| dir_base := swapendian_base_inode raw;
     dir_start_block := le_field 16 4 raw;
     dir_nlink := le_field 20 4 raw;
     dir_file_size := le_field 24 2 raw;
     dir_offset := le_field 26 2 raw;
     dir_parent_inode := le_field 28 4 raw |}.

Definition swapendian_ldir_inode (raw : list byte) : sqsh_ldir_inode :=
  {| ldir_base := swapendian_base_inode raw;
     ldir_nlink := le_field 16 4 raw;
     ldir_file_size := le_field 20 4 raw;
     ldir_start_block := le_field 24 4 raw;
     ldir_parent_inode := le_field 28 4 raw;
     ldir_i_count := le_field 32 2 raw;
     ldir_offset := le_field 34 2 raw;
     ldir_xattr := le_field 36 4 raw |}.

(** The union [xtra] of [struct sqsh_inode]: the member last stored, or the
    zero bytes [memset] left. *)
Inductive sqsh_xtra : Type :=
| XtraZero
| XtraDev (major minor : Z)
| XtraReg (start_block : Z) (frag_idx frag_off : Z)
| XtraDir (start_block : Z) (dir_off idx_count parent_inode : Z).

(** [inode->xtra.dir.parent_inode].  The resolver reads it only after a
    directory decoder stored the [dir] member; for the zeroed union it is 0
    (read through another member C would reinterpret that member's bytes,
    which this model does not track). *)
Definition xtra_dir_parent_inode (x : sqsh_xtra) : Z :=
  match x with
  | XtraDir _ _ _ p => p
  | _ => 0
  end.

(** [struct sqsh_inode] without its [vnode] back pointer. *)
Record sqsh_inode : Type := {
  base : sqsh_base_inode;
  nlink : Z;
  xattr : Z;
  size : Z;
  type : vtype;
  next : sqsh_block_run;
  xtra : sqsh_xtra
}.

(** [sqsh_metadata_run_inode]: [id] is a [uint64_t], [base] an [off_t]; the
    sum is formed in [uint64_t] and stored in the [off_t] field. *)
Definition sqsh_metadata_run_inode (id base : Z) : sqsh_block_run :=
  {| block := s64 (u64 (Z.shiftr id 16 + base));
     offset := Z.land id 0xffff |}.

(** [sqsh_inode_type]. *)
Definition sqsh_inode_type (inode_type : Z) : vtype :=
  if (inode_type =? SQUASHFS_DIR_TYPE) || (inode_type =? SQUASHFS_LDIR_TYPE)
  then VDIR
  else if (inode_type =? SQUASHFS_REG_TYPE) || (inode_type =? SQUASHFS_LREG_TYPE)
  then VREG
  else if (inode_type =? SQUASHFS_SYMLINK_TYPE)
          || (inode_type =? SQUASHFS_LSYMLINK_TYPE)
  then VLNK
  else if (inode_type =? SQUASHFS_BLKDEV_TYPE)
          || (inode_type =? SQUASHFS_LBLKDEV_TYPE)
  then VBLK
  else if (inode_type =? SQUASHFS_CHRDEV_TYPE)
          || (inode_type =? SQUASHFS_LCHRDEV_TYPE)
  then VCHR
  else if (inode_type =? SQUASHFS_FIFO_TYPE) || (inode_type =? SQUASHFS_LFIFO_TYPE)
  then VFIFO
  else if (inode_type =? SQUASHFS_SOCKET_TYPE)
          || (inode_type =? SQUASHFS_LSOCKET_TYPE)
  then VSOCK
  else VBAD.

(** [sqsh_verify_inode]. *)
Definition sqsh_verify_inode (ump : sqsh_mount) (inode : sqsh_inode) : sqsh_err :=
  if (inode_type (base inode) <? SQUASHFS_TYPE_MIN_VALID)
     || (inode_type (base inode) >? SQUASHFS_TYPE_MAX_VALID)
  then SQFS_ERR
  else if (inode_number (base inode) <? SQUASHFS_INODE_MIN_COUNT)
          || (inode_number (base inode) >? sb_inodes (sb ump))
  then SQFS_ERR
  else if (inode_type (base inode) =? SQUASHFS_DIR_TYPE)
          && ((xtra_dir_parent_inode (xtra inode) <? SQUASHFS_INODE_MIN_COUNT)
              || (xtra_dir_parent_inode (xtra inode) >? u32 (sb_inodes (sb ump) + 1)))
  then SQFS_ERR
  else SQFS_OK.

(** [sqsh_root_inode]. *)
Definition sqsh_root_inode (ump : sqsh_mount) : Z := sb_root_inode (sb ump).

(** The variant decoders.  Each pulls its whole record, base header
    included, through [inode->next], and stores into the inode; the [int]
    field [nlink] receives 32-bit values by conversion. *)
Definition sqsh_init_reg_inode (ump : sqsh_mount) (inode : sqsh_inode)
    : M sqsh_inode :=
  '(next', raw) <- sqsh_metadata_get ump (next inode) true sizeof_reg_inode ;;
  let temp := swapendian_reg_inode raw in
  ret {| base := base inode; nlink := 1; xattr := xattr inode;
         size := reg_file_size temp; type := type inode; next := next';
         xtra := XtraReg (reg_start_block temp) (reg_fragment temp)
                   (reg_offset temp) |}.

Definition sqsh_init_lreg_inode (ump : sqsh_mount) (inode : sqsh_inode)
    : M sqsh_inode :=
  '(next', raw) <- sqsh_metadata_get ump (next inode) true sizeof_lreg_inode ;;
  let temp := swapendian_lreg_inode raw in
  ret {| base := base inode; nlink := s32 (lreg_nlink temp);
         xattr := lreg_xattr temp; size := lreg_file_size temp;
         type := type inode; next := next';
         xtra := XtraReg (lreg_start_block temp) (lreg_fragment temp)
                   (lreg_offset temp) |}.

Definition sqsh_init_dir_inode (ump : sqsh_mount) (inode : sqsh_inode)
    : M sqsh_inode :=
  '(next', raw) <- sqsh_metadata_get ump (next inode) true sizeof_dir_inode ;;
  let temp := swapendian_dir_inode raw in
  ret {| base := base inode; nlink := s32 (dir_nlink temp);
         xattr := xattr inode; size := dir_file_size temp;
         type := type inode; next := next';
         xtra := XtraDir (dir_start_block temp) (dir_offset temp) 0
                   (dir_parent_inode temp) |}.

Definition sqsh_init_ldir_inode (ump : sqsh_mount) (inode : sqsh_inode)
    : M sqsh_inode :=
  '(next', raw) <- sqsh_metadata_get ump (next inode) true sizeof_ldir_inode ;;
  let temp := swapendian_ldir_inode raw in
  ret {| base := base inode; nlink := s32 (ldir_nlink temp);
         xattr := ldir_xattr temp; size := ldir_file_size temp;
         type := type inode; next := next';
         xtra := XtraDir (ldir_start_block temp) (ldir_offset temp)
                   (ldir_i_count temp) (ldir_parent_inode temp) |}.

Definition sqsh_init_symlink_inode (ump : sqsh_mount) (inode : sqsh_inode)
    : M sqsh_inode :=
  '(next', raw) <- sqsh_metadata_get ump (next inode) true sizeof_symlink_inode ;;
  ret {| base := base inode; nlink := s32 (symlink_nlink raw);
         xattr := xattr inode; size := symlink_symlink_size raw;
         type := type inode; next := next'; xtra := xtra inode |}.

Definition sqsh_init_dev_inode (ump : sqsh_mount) (inode : sqsh_inode)
    : M sqsh_inode :=
  '(next', raw) <- sqsh_metadata_get ump (next inode) true sizeof_dev_inode ;;
  let rdev := dev_rdev raw in
  ret {| base := base inode; nlink := s32 (dev_nlink raw);
         xattr := xattr inode; size := 0; type := type inode; next := next';
         xtra := XtraDev (sqsh_dev_major rdev) (sqsh_dev_minor rdev) |}.

Definition sqsh_init_ldev_inode (ump : sqsh_mount) (inode : sqsh_inode)
    : M sqsh_inode :=
  '(next', raw) <- sqsh_metadata_get ump (next inode) true sizeof_ldev_inode ;;
  let rdev := dev_rdev raw in
  ret {| base := base inode; nlink := s32 (dev_nlink raw);
         xattr := ldev_xattr raw; size := 0; type := type inode; next := next';
         xtra := XtraDev (sqsh_dev_major rdev) (sqsh_dev_minor rdev) |}.

Definition sqsh_init_ipc_inode (ump : sqsh_mount) (inode : sqsh_inode)
    : M sqsh_inode :=
  '(next', raw) <- sqsh_metadata_get ump (next inode) true sizeof_ipc_inode ;;
  ret {| base := base inode; nlink := s32 (ipc_nlink raw);
         xattr := xattr inode; size := 0; type := type inode; next := next';
         xtra := xtra inode |}.

Definition sqsh_init_lipc_inode (ump : sqsh_mount) (inode : sqsh_inode)
    : M sqsh_inode :=
  '(next', raw) <- sqsh_metadata_get ump (next inode) true sizeof_lipc_inode ;;
  ret {| base := base inode; nlink := s32 (ipc_nlink raw);
         xattr := lipc_xattr raw; size := 0; type := type inode; next := next';
         xtra := xtra inode |}.

(** The inode [sqsh_get_inode] has built when it reaches its [switch]:
    zeroed, [xattr] set to the sentinel, [next] the seeded cursor (copied
    before the base header is pulled through the local [cur]), [base] the
    converted header and [type] its classification. *)
Definition inode_after_base (cur : sqsh_block_run) (raw : list byte) : sqsh_inode :=
  let b := swapendian_base_inode raw in
  {| base := b; nlink := 0; xattr := SQUASHFS_INVALID_XATTR; size := 0;
     type := sqsh_inode_type (inode_type b); next := cur; xtra := XtraZero |}.

(** The [switch] of [sqsh_get_inode] on [inode->base.inode_type]. *)
Definition sqsh_get_inode_switch (ump : sqsh_mount) (inode : sqsh_inode)
    : M sqsh_inode :=
  let t := inode_type (base inode) in
  if t =? SQUASHFS_REG_TYPE then sqsh_init_reg_inode ump inode
  else if t =? SQUASHFS_LREG_TYPE then sqsh_init_lreg_inode ump inode
  else if t =? SQUASHFS_DIR_TYPE then sqsh_init_dir_inode ump inode
  else if t =? SQUASHFS_LDIR_TYPE then sqsh_init_ldir_inode ump inode
  else if (t =? SQUASHFS_SYMLINK_TYPE) || (t =? SQUASHFS_LSYMLINK_TYPE)
  then sqsh_init_symlink_inode ump inode
  else if (t =? SQUASHFS_BLKDEV_TYPE) || (t =? SQUASHFS_CHRDEV_TYPE)
  then sqsh_init_dev_inode ump inode
  else if (t =? SQUASHFS_LBLKDEV_TYPE) || (t =? SQUASHFS_LCHRDEV_TYPE)
  then sqsh_init_ldev_inode ump inode
  else if (t =? SQUASHFS_SOCKET_TYPE) || (t =? SQUASHFS_FIFO_TYPE)
  then sqsh_init_ipc_inode ump inode
  else if (t =? SQUASHFS_LSOCKET_TYPE) || (t =? SQUASHFS_LFIFO_TYPE)
  then sqsh_init_lipc_inode ump inode
  else fail.

(** [sqsh_get_inode]: the inode stored through the out-parameter when the
    call returns [SQFS_OK]. *)
Definition sqsh_get_inode (ump : sqsh_mount) (id : Z) : M sqsh_inode :=
  let cur := sqsh_metadata_run_inode id (sb_inode_table_start (sb ump)) in
  '(_, raw) <- sqsh_metadata_get ump cur true sizeof_base_inode ;;
  inode <- sqsh_get_inode_switch ump (inode_after_base cur raw) ;;
  match sqsh_verify_inode ump inode with
  | SQFS_OK => ret inode
  | SQFS_ERR => fail
  end.

(** The size of the record the [switch] pulls for a type code. *)
Definition inode_record_size (t : Z) : Z :=
  if t =? SQUASHFS_REG_TYPE then sizeof_reg_inode
  else if t =? SQUASHFS_LREG_TYPE then sizeof_lreg_inode
  else if t =? SQUASHFS_DIR_TYPE then sizeof_dir_inode
  else if t =? SQUASHFS_LDIR_TYPE then sizeof_ldir_inode
  else if (t =? SQUASHFS_SYMLINK_TYPE) || (t =? SQUASHFS_LSYMLINK_TYPE)
  then sizeof_symlink_inode
  else if (t =? SQUASHFS_BLKDEV_TYPE) || (t =? SQUASHFS_CHRDEV_TYPE)
  then sizeof_dev_inode
  else if (t =? SQUASHFS_LBLKDEV_TYPE) || (t =? SQUASHFS_LCHRDEV_TYPE)
  then sizeof_ldev_inode
  else if (t =? SQUASHFS_SOCKET_TYPE) || (t =? SQUASHFS_FIFO_TYPE)
  then sizeof_ipc_inode
  else sizeof_lipc_inode.

(** ** Concrete images *)

Module Samples.

Definition byte_of (z : Z) : byte :=
  match Byte.of_N (Z.to_N (z mod 256)) with
  | Some b => b
  | None => x00
  end.

(** The [n] bytes of [z], least significant first. *)
Fixpoint le_split (n : nat) (z : Z) : list byte :=
  match n with
  | O => []
  | S k => byte_of z :: le_split k (z / 256)
  end.

Definition base_record (t number : Z) : list byte :=
  le_split 2 t ++ le_split 2 0x41ed ++ le_split 2 0 ++ le_split 2 0
    ++ le_split 4 1700000000 ++ le_split 4 number.

(** Compact regular file: start_block, fragment, offset, file_size. *)
Definition reg_record (number : Z) : list byte :=
  base_record SQUASHFS_REG_TYPE number
    ++ le_split 4 96 ++ le_split 4 0xffffffff ++ le_split 4 0 ++ le_split 4 5.

(** Compact directory: start_block, nlink, file_size, offset, parent_inode. *)
Definition dir_record (number parent : Z) : list byte :=
  base_record SQUASHFS_DIR_TYPE number
    ++ le_split 4 0 ++ le_split 4 2 ++ le_split 2 3 ++ le_split 2 0
    ++ le_split 4 parent.

(** Extended directory: nlink, file_size, start_block, parent_inode,
    i_count, offset, xattr. *)
Definition ldir_record (number parent : Z) : list byte :=
  base_record SQUASHFS_LDIR_TYPE number
    ++ le_split 4 2 ++ le_split 4 3 ++ le_split 4 0 ++ le_split 4 parent
    ++ le_split 2 0 ++ le_split 2 0 ++ le_split 4 0xffffffff.

(** A decompressor that always fails: the images below store their
    blocks raw. *)
Definition no_decompressor (src : list byte) (n cap : Z)
    : sqsh_err * (list byte * Z) := (SQFS_ERR, ([], cap)).

(** A decompressor that reports success and 9000 produced bytes whatever
    the capacity. *)
Definition overlong_decompressor (src : list byte) (n cap : Z)
    : sqsh_err * (list byte * Z) := (SQFS_OK, (src, 9000)).

(** One raw metadata block: header with bit 15 set, then the payload. *)
Definition raw_block (payload : list byte) : list byte :=
  le_split 2 (0x8000 + Z.of_nat (length payload)) ++ payload.

(** A mount of [inodes] inodes whose inode table, at absolute offset
    [start], is one raw block holding [rec] and eight spare bytes. *)
Definition mount_of (start inodes : Z) (rec : list byte) : sqsh_mount :=
  {| image := repeat x00 (Z.to_nat start) ++ raw_block (rec ++ repeat x00 8);
     sb := {| sb_inodes := inodes; sb_block_size := 131072;
              sb_inode_table_start := start; sb_root_inode := 0 |};
     decompressor := no_decompressor |}.

Definition reg_mount : sqsh_mount := mount_of 0x1000 3 (reg_record 1).
Definition dir_root_mount : sqsh_mount := mount_of 0 3 (dir_record 2 4).
Definition dir_bad_parent_mount : sqsh_mount := mount_of 0 3 (dir_record 2 5).
Definition ldir_bad_parent_mount : sqsh_mount := mount_of 0 3 (ldir_record 2 5).

(** A store of two raw blocks of 16 and 24 bytes. *)
Definition two_block_mount : sqsh_mount :=
  {| image := raw_block (repeat x01 16) ++ raw_block (repeat x02 24);
     sb := {| sb_inodes := 1; sb_block_size := 131072;
              sb_inode_table_start := 0; sb_root_inode := 0 |};
     decompressor := no_decompressor |}.

(** A store holding one compressed block of four bytes (header 0x0004),
    mounted with the decompressor that overstates its output. *)
Definition overlong_mount : sqsh_mount :=
  {| image := le_split 2 0x0004 ++ repeat x07 4;
     sb := {| sb_inodes := 1; sb_block_size := 131072;
              sb_inode_table_start := 0; sb_root_inode := 0 |};
     decompressor := overlong_decompressor |}.

End Samples.


(** ** Notions the statements below use *)

(** The backing store can be addressed with non-negative [off_t] values. *)
Definition image_addressable (ump : sqsh_mount) : Prop :=
  Z.of_nat (length (image ump)) < 2 ^ 63.

(** The on-disk payload size the header stored at [pos] announces. *)
Definition on_disk_size (ump : sqsh_mount) (pos : Z) : Z :=
  snd (sqsh_metadata_header (le_combine (backing_bytes ump pos 2))).

(** [get_reaches ump buf s s']: the loop of [sqsh_metadata_get], started with
    variables and log [s], arrives at the loop head with [s'] after some
    number of iterations, each entered with [size > 0] and completed
    without error. *)
Inductive get_reaches (ump : sqsh_mount) (buf : bool)
    : get_state * io_log -> get_state * io_log -> Prop :=
| reach_here s : get_reaches ump buf s s
| reach_step st l st' l' s'' :
    0 < g_size st ->
    metadata_get_body ump buf st l = (Ret st', l') ->
    get_reaches ump buf (st', l') s'' ->
    get_reaches ump buf (st, l) s''.

(** At the loop head with bytes still wanted, [pos] is the position of the
    block the cursor names. *)
Definition pos_tracks_cursor (st : get_state) : Prop :=
  0 < g_size st -> g_pos st = block (g_cur st).

(** A budget of [fuel] iterations is enough from [st]: it is not empty, and
    it exceeds the bytes of the image that lie at or after [pos]. *)
Definition enough_fuel (ump : sqsh_mount) (fuel : nat) (st : get_state) : Prop :=
  (1 <= fuel)%nat
  /\ (0 <= g_pos st -> Z.of_nat (length (image ump)) < Z.of_nat fuel + g_pos st).

(** ** Further functions of squashfs_block.c and squashfs_inode.h *)

(** [sqsh_ceil]: [total] is a [uint64_t], [group] and the result [size_t];
    the division is unsigned.  The C code divides by [group] without a test,
    so [group = 0] is outside what the model describes. *)
Definition sqsh_ceil (total group : Z) : Z :=
  let ans := u64 (total / group) in
  if negb (total mod group =? 0) then u64 (ans + 1) else ans.

(** [SQUASHFS_INODE_OFFSET] of squashfs_inode.h: the in-block offset of an
    inode id, as an [unsigned int]. *)
Definition SQUASHFS_INODE_OFFSET (a : Z) : Z := u32 (Z.land a 0xffff).

(** [inode->xtra.dev.major] and [inode->xtra.dev.minor], read after a device
    decoder stored the [dev] member. *)
Definition xtra_dev_major (x : sqsh_xtra) : Z :=
  match x with
  | XtraDev M _ => M
  | _ => 0
  end.

Definition xtra_dev_minor (x : sqsh_xtra) : Z :=
  match x with
  | XtraDev _ m => m
  | _ => 0
  end.

(** ** Further notions the statements use *)

(** The decompressor keeps its contract: when it reports success, the size
    it reports is a [size_t] and the buffer holds that many bytes. *)
Definition decompressor_honest (ump : sqsh_mount) : Prop :=
  forall src n cap d m,
    decompressor ump src n cap = (SQFS_OK, (d, m)) ->
    0 <= m < 2 ^ 64 /\ Z.of_nat (length d) = m.

(** The cursor lies in the block it names: if that block can be read, the
    offset is at most the block's size. *)
Definition cursor_in_block (ump : sqsh_mount) (cur : sqsh_block_run) : Prop :=
  0 <= offset cur
  /\ forall dsz blk,
       fst (sqsh_metadata_read ump (block cur) []) = Ret (dsz, blk) ->
       offset cur <= b_size blk.

(** The loop variables with [p] put in front of the bytes stored so far. *)
Definition prefix_out (p : list byte) (st : get_state) : get_state :=
  {| g_pos := g_pos st; g_cur := g_cur st; g_size := g_size st;
     g_out := p ++ g_out st |}.

Definition map_res {A B} (f : A -> B) (r : res A) : res B :=
  match r with
  | Ret a => Ret (f a)
  | Err => Err
  | Fuel => Fuel
  end.

(** Which member of the union [xtra] the decoders store for a node kind. *)
Definition xtra_matches_kind (t : vtype) (x : sqsh_xtra) : Prop :=
  match t with
  | VDIR => exists sb off ic p, x = XtraDir sb off ic p
  | VREG => exists sb fi fo, x = XtraReg sb fi fo
  | VBLK | VCHR => exists M m, x = XtraDev M m
  | _ => x = XtraZero
  end.

(** What the decoder that the [switch] of [sqsh_get_inode] selects for the
    type code [t] leaves in the inode [i'], given the inode [i] it was
    handed: the fields it assigns and the ones it does not touch. *)
Definition variant_facts (t : Z) (i i' : sqsh_inode) : Prop :=
  if t =? SQUASHFS_REG_TYPE
  then nlink i' = 1 /\ xattr i' = xattr i
       /\ exists sb fi fo, xtra i' = XtraReg sb fi fo
  else if t =? SQUASHFS_LREG_TYPE
  then exists sb fi fo, xtra i' = XtraReg sb fi fo
  else if t =? SQUASHFS_DIR_TYPE
  then xattr i' = xattr i /\ exists sb off p, xtra i' = XtraDir sb off 0 p
  else if t =? SQUASHFS_LDIR_TYPE
  then exists sb off ic p, xtra i' = XtraDir sb off ic p
  else if (t =? SQUASHFS_SYMLINK_TYPE) || (t =? SQUASHFS_LSYMLINK_TYPE)
  then xattr i' = xattr i /\ xtra i' = xtra i
  else if (t =? SQUASHFS_BLKDEV_TYPE) || (t =? SQUASHFS_CHRDEV_TYPE)
  then xattr i' = xattr i /\ size i' = 0
       /\ exists rdev,
            xtra i' = XtraDev (sqsh_dev_major rdev) (sqsh_dev_minor rdev)
  else if (t =? SQUASHFS_LBLKDEV_TYPE) || (t =? SQUASHFS_LCHRDEV_TYPE)
  then size i' = 0
       /\ exists rdev,
            xtra i' = XtraDev (sqsh_dev_major rdev) (sqsh_dev_minor rdev)
  else if (t =? SQUASHFS_SOCKET_TYPE) || (t =? SQUASHFS_FIFO_TYPE)
  then xattr i' = xattr i /\ size i' = 0 /\ xtra i' = xtra i
  else if (t =? SQUASHFS_LSOCKET_TYPE) || (t =? SQUASHFS_LFIFO_TYPE)
  then size i' = 0 /\ xtra i' = xtra i
  else False.

(** The loop variables with another number of bytes still wanted. *)
Definition with_size (st : get_state) (n : Z) : get_state :=
  {| g_pos := g_pos st; g_cur := g_cur st; g_size := n; g_out := g_out st |}.

(** The bytes one iteration stores: [take] bytes of the buffer from the
    cursor's offset on, when [buf] is not NULL. *)
Definition copied (buf : bool) (blk : sqsh_block) (off take : Z) : list byte :=
  if buf
  then firstn (Z.to_nat take) (skipn (Z.to_nat off) (b_data blk))
  else [].

(** The condition under which the loop stays on cursors that lie in their
    blocks. *)
Definition loop_ready (ump : sqsh_mount) (st : get_state) : Prop :=
  0 < g_size st ->
  g_pos st = block (g_cur st)
  /\ 0 <= offset (g_cur st)
  /\ forall dsz blk la lb,
       sqsh_metadata_read ump (g_pos st) la = (Ret (dsz, blk), lb) ->
       offset (g_cur st) <= b_size blk.

(** The loop variables with nothing stored. *)
Definition erase_out (st : get_state) : get_state :=
  {| g_pos := g_pos st; g_cur := g_cur st; g_size := g_size st; g_out := [] |}.

(** ** More concrete images *)

Module MoreSamples.

(** An inode table whose only record carries the unknown type code 15. *)
Definition bad_type_mount : sqsh_mount :=
  Samples.mount_of 0 3 (Samples.base_record 15 1 ++ repeat x00 16).

(** A compact block device: nlink 1, rdev packed from major 8, minor 3. *)
Definition blkdev_mount : sqsh_mount :=
  Samples.mount_of 0 3
    (Samples.base_record SQUASHFS_BLKDEV_TYPE 1
       ++ Samples.le_split 4 1 ++ Samples.le_split 4 (spec_rdev_pack 8 3)).

(** Two inodes in one block: a regular file at offset 0 and the root
    directory at offset 32. *)
Definition two_inode_mount : sqsh_mount :=
  Samples.mount_of 0 3 (Samples.reg_record 1 ++ Samples.dir_record 2 4).

(** The image of [Samples.two_block_mount] cut one byte short. *)
Definition truncated_mount : sqsh_mount :=
  {| image := removelast (image Samples.two_block_mount);
     sb := sb Samples.two_block_mount;
     decompressor := Samples.no_decompressor |}.

End MoreSamples.

(** * Properties *)

(** ** Machine integers *)

Lemma u16_small z : 0 <= z < 2 ^ 16 -> u16 z = z.
Proof. intros; unfold u16; now apply Z.mod_small. Qed.

Lemma u32_small z : 0 <= z < 2 ^ 32 -> u32 z = z.
Proof. intros; unfold u32; now apply Z.mod_small. Qed.

Lemma u64_small z : 0 <= z < 2 ^ 64 -> u64 z = z.
Proof. intros; unfold u64; now apply Z.mod_small. Qed.

Lemma u64_range z : 0 <= u64 z < 2 ^ 64.
Proof. unfold u64; apply Z.mod_pos_bound; lia. Qed.

Lemma u32_range z : 0 <= u32 z < 2 ^ 32.
Proof. unfold u32; apply Z.mod_pos_bound; lia. Qed.

Lemma u16_range z : 0 <= u16 z < 2 ^ 16.
Proof. unfold u16; apply Z.mod_pos_bound; lia. Qed.

Lemma s32_small z : - 2 ^ 31 <= z < 2 ^ 31 -> s32 z = z.
Proof. intros; unfold s32; rewrite Z.mod_small; lia. Qed.

Lemma s64_small z : - 2 ^ 63 <= z < 2 ^ 63 -> s64 z = z.
Proof. intros; unfold s64; rewrite Z.mod_small; lia. Qed.

(** ** Bit-level facts *)

Lemma testbit_high a n i :
  0 <= n -> 0 <= a < 2 ^ n -> n <= i -> Z.testbit a i = false.
Proof.
  intros Hn Ha Hi. rewrite <- (Z.mod_small a (2 ^ n)) by exact Ha.
  apply Z.mod_pow2_bits_high; lia.
Qed.

Ltac kill_high_bits :=
  repeat match goal with
         | Hb : 0 <= ?a < 2 ^ ?n |- context [Z.testbit ?a ?j] =>
             rewrite (testbit_high a n j) by lia
         end.

Ltac bits_finish :=
  repeat match goal with
         | |- context [?a =? ?b] => destruct (Z.eqb_spec a b); try lia
         end;
  kill_high_bits; cbn [negb andb orb];
  rewrite ?andb_true_r, ?andb_false_r, ?orb_false_r; try reflexivity.

Lemma land_pow2 h n :
  0 <= n -> Z.land h (Z.shiftl 1 n) = if Z.testbit h n then 2 ^ n else 0.
Proof.
  intros Hn. rewrite Z.shiftl_1_l.
  destruct (Z.testbit h n) eqn:Hb; Z.bitblast;
    destruct (Z.eqb_spec n i); subst; rewrite ?Hb, ?andb_false_r; reflexivity.
Qed.

Lemma flag_clear_iff h n :
  0 <= n -> (Z.land h (Z.shiftl 1 n) =? 0) = negb (Z.testbit h n).
Proof.
  intros Hn. rewrite land_pow2 by exact Hn.
  destruct (Z.testbit h n); cbn [negb].
  - apply Z.eqb_neq. apply Z.pow_nonzero; lia.
  - reflexivity.
Qed.

(** Clearing bit 15 and truncating to 16 bits keeps bits 14..0, for every
    integer. *)
Lemma metadata_size_mask h :
  u16 (Z.land h (Z.lnot SQUASHFS_COMPRESSED_BIT)) = Z.land h (Z.ones 15).
Proof.
  unfold u16, SQUASHFS_COMPRESSED_BIT.
  rewrite <- Z.land_ones by lia. rewrite Z.shiftl_1_l.
  Z.bitblast; bits_finish.
Qed.

Lemma data_size_mask h :
  0 <= h < 2 ^ 32 ->
  u32 (Z.land h (Z.lnot SQUASHFS_COMPRESSED_BIT_BLOCK))
  = Z.land h (Z.lnot (2 ^ 24)).
Proof.
  intros Hh. unfold u32, SQUASHFS_COMPRESSED_BIT_BLOCK.
  rewrite <- Z.land_ones by lia. rewrite Z.shiftl_1_l.
  Z.bitblast; bits_finish.
Qed.

(** The size [sqsh_metadata_header] returns is never 0 and at most 0x8000. *)
Lemma metadata_header_size_range h :
  1 <= snd (sqsh_metadata_header h) <= 0x8000.
Proof.
  unfold sqsh_metadata_header; cbn [snd].
  rewrite metadata_size_mask, Z.land_ones by lia.
  pose proof (Z.mod_pos_bound h (2 ^ 15) ltac:(lia)) as Hm.
  destruct (Z.eqb_spec (h mod 2 ^ 15) 0) as [E | E].
  - vm_compute; split; discriminate.
  - lia.
Qed.

(** ** Block headers *)

(** C2.  For every 16-bit header [h], [sqsh_metadata_header] returns
    [compressed = false] exactly when bit 15 of [h] is set, and the size it
    returns is [h] with bit 15 masked off, except that a masked size of zero
    is returned as 0x8000. *)
Theorem C2_metadata_header_decodes (h : Z) :
  0 <= h < 2 ^ 16 ->
  (fst (sqsh_metadata_header h) = false <-> Z.testbit h 15 = true)
  /\ snd (sqsh_metadata_header h)
     = (if Z.land h 0x7FFF =? 0 then 0x8000 else Z.land h 0x7FFF).
Proof.
  intros _. unfold sqsh_metadata_header; cbn [fst snd]. split.
  - unfold SQUASHFS_COMPRESSED_BIT. rewrite flag_clear_iff by lia.
    destruct (Z.testbit h 15); cbn [negb]; split; congruence.
  - rewrite metadata_size_mask. change (Z.ones 15) with 0x7FFF.
    destruct (Z.land h 0x7FFF =? 0); reflexivity.
Qed.

Lemma C2_metadata_header_decodes_witness :
  0 <= 0x8123 < 2 ^ 16
  /\ (fst (sqsh_metadata_header 0x8123) = false <-> Z.testbit 0x8123 15 = true)
  /\ snd (sqsh_metadata_header 0x8123)
     = (if Z.land 0x8123 0x7FFF =? 0 then 0x8000 else Z.land 0x8123 0x7FFF).
Proof.
  split; [lia | apply (C2_metadata_header_decodes 0x8123); lia].
Defined.

(** C5, as stated, fails: header 0x0000 has bit 15 clear, so the decoder does
    not return [(compressed = false, size = 0x8000)]. *)
Lemma C5_header_zero_not_raw :
  sqsh_metadata_header 0x0000 <> (false, 0x8000).
Proof. vm_compute. discriminate. Qed.

(** C5 (amended).  Decoding the metadata header 0x0000 yields the size 0x8000
    with the compressed flag equal to true: the 0x8000 on-disk bytes are
    handed to the decompressor. *)
Theorem C5_header_zero_is_compressed_full :
  sqsh_metadata_header 0x0000 = (true, 0x8000).
Proof. reflexivity. Qed.

(** C6, as stated, fails: with bit 25 set the returned size is not the low
    24 bits of the header. *)
Lemma C6_high_bits_kept :
  snd (sqsh_data_header 0x02000000) <> Z.land 0x02000000 0xFFFFFF.
Proof. vm_compute. discriminate. Qed.

(** C6 (amended).  For every 32-bit header [h], [sqsh_data_header] returns
    [compressed = false] exactly when bit 24 of [h] is set, and the size it
    returns is [h] with bit 24 alone cleared; that size equals the low 24
    bits of [h] exactly when bits 25..31 of [h] are all clear. *)
Theorem C6_data_header_decodes (h : Z) :
  0 <= h < 2 ^ 32 ->
  (fst (sqsh_data_header h) = false <-> Z.testbit h 24 = true)
  /\ snd (sqsh_data_header h) = Z.land h 0xFEFFFFFF
  /\ (snd (sqsh_data_header h) = Z.land h 0xFFFFFF <-> h < 2 ^ 25).
Proof.
  intros Hh. unfold sqsh_data_header; cbn [fst snd].
  rewrite data_size_mask by exact Hh. repeat split.
  - unfold SQUASHFS_COMPRESSED_BIT_BLOCK. rewrite flag_clear_iff by lia.
    destruct (Z.testbit h 24); cbn [negb]; congruence.
  - unfold SQUASHFS_COMPRESSED_BIT_BLOCK. rewrite flag_clear_iff by lia.
    intros ->; reflexivity.
  - change 0xFEFFFFFF with (Z.land (Z.lnot (2 ^ 24)) (Z.ones 32)).
    Z.bitblast; bits_finish.
  - intros E. destruct (Z_lt_ge_dec h (2 ^ 25)) as [Hlt | Hge]; [exact Hlt | exfalso].
    assert (Hpos : 0 < h) by lia.
    pose proof (Z.bit_log2 h Hpos) as Hbit.
    assert (Hlog : 25 <= Z.log2 h)
      by (apply Z.log2_le_pow2; [exact Hpos | lia]).
    apply (f_equal (fun z => Z.testbit z (Z.log2 h))) in E.
    change 0xFFFFFF with (Z.ones 24) in E.
    rewrite !Z.land_spec, Hbit, Z.lnot_spec, Z.pow2_bits_eqb in E by lia.
    rewrite Z.ones_spec_high in E by lia.
    destruct (Z.eqb_spec 24 (Z.log2 h)); [lia | discriminate E].
  - intros Hlt. change 0xFFFFFF with (Z.ones 24).
    assert (Hh' : 0 <= h < 2 ^ 25) by lia. clear Hh Hlt.
    Z.bitblast; bits_finish.
Qed.

Lemma C6_data_header_decodes_witness :
  0 <= 0x01000200 < 2 ^ 32
  /\ (fst (sqsh_data_header 0x01000200) = false
      <-> Z.testbit 0x01000200 24 = true)
  /\ snd (sqsh_data_header 0x01000200) = Z.land 0x01000200 0xFEFFFFFF
  /\ (snd (sqsh_data_header 0x01000200) = Z.land 0x01000200 0xFFFFFF
      <-> 0x01000200 < 2 ^ 25).
Proof.
  split; [lia | apply (C6_data_header_decodes 0x01000200); lia].
Defined.

(** ** Device numbers *)

Lemma rdev_major_bits M m :
  0 <= M < 2 ^ 12 -> 0 <= m < 2 ^ 20 ->
  Z.land (Z.shiftr (spec_rdev_pack M m) 8) 0xfff = M.
Proof.
  intros HM Hm. unfold spec_rdev_pack.
  change 0xfff with (Z.ones 12). change 0xFFF with (Z.ones 12).
  change 0xFF with (Z.ones 8). change 0xFFF00 with (Z.shiftl (Z.ones 12) 8).
  Z.bitblast; rewrite ?Z.land_spec; bits_finish.
Qed.

Lemma rdev_minor_bits M m :
  0 <= M < 2 ^ 12 -> 0 <= m < 2 ^ 20 ->
  Z.lor (Z.land (spec_rdev_pack M m) 0xff)
        (Z.land (Z.shiftr (spec_rdev_pack M m) 12) 0xfff00) = m.
Proof.
  intros HM Hm. unfold spec_rdev_pack.
  change 0xfff00 with (Z.shiftl (Z.ones 12) 8). change 0xFFF with (Z.ones 12).
  change 0xFF with (Z.ones 8). change 0xff with (Z.ones 8).
  change 0xFFF00 with (Z.shiftl (Z.ones 12) 8).
  Z.bitblast; rewrite ?Z.land_spec; bits_finish.
Qed.

(** C8.  The device number round-trips: for every major [M] below 2^12 and
    every minor [m] below 2^20, the decoding of [sqsh_init_dev_inode] and
    [sqsh_init_ldev_inode], applied to the packed
    [((M & 0xFFF) << 8) | (m & 0xFF) | ((m & 0xFFF00) << 12)], gives back
    exactly [(M, m)]. *)
Theorem C8_rdev_roundtrip (M m : Z) :
  0 <= M < 2 ^ 12 -> 0 <= m < 2 ^ 20 ->
  sqsh_dev_major (spec_rdev_pack M m) = M
  /\ sqsh_dev_minor (spec_rdev_pack M m) = m.
Proof.
  intros HM Hm. unfold sqsh_dev_major, sqsh_dev_minor.
  rewrite rdev_major_bits, rdev_minor_bits by assumption.
  split; apply s32_small; lia.
Qed.

Lemma C8_rdev_roundtrip_witness :
  0 <= 0xABC < 2 ^ 12 /\ 0 <= 0x12345 < 2 ^ 20
  /\ sqsh_dev_major (spec_rdev_pack 0xABC 0x12345) = 0xABC
  /\ sqsh_dev_minor (spec_rdev_pack 0xABC 0x12345) = 0x12345.
Proof.
  split; [lia | split; [lia | apply (C8_rdev_roundtrip 0xABC 0x12345); lia]].
Defined.

(** ** The monad and the backing store *)

Lemma bind_Ret_inv {A B} (m : M A) (f : A -> M B) l b l' :
  bind m f l = (Ret b, l') ->
  exists a l1, m l = (Ret a, l1) /\ f a l1 = (Ret b, l').
Proof.
  unfold bind. destruct (m l) as [[a | | ] l1]; intros H; try discriminate.
  exists a, l1. split; [reflexivity | exact H].
Qed.

Lemma bind_Ret {A B} (m : M A) (f : A -> M B) l a l1 :
  m l = (Ret a, l1) -> bind m f l = f a l1.
Proof. unfold bind; intros ->; reflexivity. Qed.

(** A read that delivers all [n > 0] bytes lies inside the image. *)
Lemma backing_bytes_full ump pos n :
  0 < n -> Z.of_nat (length (backing_bytes ump pos n)) = n ->
  0 <= pos /\ pos + n <= Z.of_nat (length (image ump)).
Proof.
  unfold backing_bytes. intros Hn.
  destruct (Z.ltb_spec pos 0) as [Hneg | Hpos]; cbn [length].
  - lia.
  - rewrite length_firstn, length_skipn. lia.
Qed.

(** ** C10: a pull of zero bytes *)

(** C10.  For every mount and every cursor, [sqsh_metadata_get] with
    [size = 0] returns [SQFS_OK], issues no read of the backing store (the
    log is unchanged), stores nothing, and leaves both fields of the cursor
    as they were. *)
Theorem C10_get_zero_is_noop (ump : sqsh_mount) (cur : sqsh_block_run)
    (buf : bool) (l : io_log) :
  sqsh_metadata_get ump cur buf 0 l = (Ret (cur, []), l).
Proof. reflexivity. Qed.

(** ** C9: what a compressed block read checks *)

(** C9, as stated, fails: a decompressor that returns [SQFS_OK] and reports
    9000 produced bytes, more than the 8192-byte capacity it was given, has
    its block accepted, by [sqsh_block_read] and by [sqsh_metadata_read]. *)
Lemma C9_overlong_output_accepted :
  SQUASHFS_METADATA_SIZE < 9000
  /\ decompressor Samples.overlong_mount (repeat x07 4) 4 SQUASHFS_METADATA_SIZE
     = (SQFS_OK, (repeat x07 4, 9000))
  /\ fst (sqsh_block_read Samples.overlong_mount 2 true 4
            SQUASHFS_METADATA_SIZE [])
     = Ret {| b_data := repeat x07 4; b_size := 9000 |}
  /\ fst (sqsh_metadata_read Samples.overlong_mount 0 [])
     = Ret (6, {| b_data := repeat x07 4; b_size := 9000 |}).
Proof. vm_compute. repeat split. Qed.

(** C9 (amended).  Reading a compressed block fails exactly when the backing
    read is short or the decompressor returns an error status; when the
    decompressor returns [SQFS_OK], [sqsh_block_read] returns the block with
    the size the decompressor reported, whatever the capacity. *)
Theorem C9_block_read_trusts_decompressor (ump : sqsh_mount)
    (pos size outsize : Z) (l : io_log) :
  let data := backing_bytes ump pos size in
  (fst (sqsh_block_read ump pos true size outsize l) = Err
   <-> (Z.of_nat (length data) <> size
        \/ fst (decompressor ump data size outsize) = SQFS_ERR))
  /\ (forall decomp n,
        Z.of_nat (length data) = size ->
        decompressor ump data size outsize = (SQFS_OK, (decomp, n)) ->
        fst (sqsh_block_read ump pos true size outsize l)
        = Ret {| b_data := decomp; b_size := u64 n |}).
Proof.
  intros data. unfold sqsh_block_read, bind, sqsh_io_read_buf.
  fold data. split.
  - destruct (Z.eqb_spec (Z.of_nat (length data)) size) as [E | E]; cbn.
    + destruct (decompressor ump data size outsize) as [[ | ] [d n]]; cbn;
        split; try discriminate; try tauto.
      intros [H | H]; [contradiction | discriminate].
    + split; [intros _; left; exact E | reflexivity].
  - intros decomp n E Hd.
    rewrite (proj2 (Z.eqb_eq _ _) E); cbn. rewrite Hd. reflexivity.
Qed.

(** ** One metadata block read *)

Lemma u64_add_idemp a b : u64 (a + u64 b) = u64 (a + b).
Proof. unfold u64. apply Z.add_mod_idemp_r. lia. Qed.

Lemma metadata_read_inv ump pos l dsz blk l' :
  sqsh_metadata_read ump pos l = (Ret (dsz, blk), l') ->
  Z.of_nat (length (backing_bytes ump pos 2)) = 2
  /\ dsz = 2 + on_disk_size ump pos
  /\ Z.of_nat (length (backing_bytes ump (s64 (pos + 2)) (on_disk_size ump pos)))
     = on_disk_size ump pos
  /\ 0 <= b_size blk < 2 ^ 64
  /\ l' = l ++ [(pos, 2); (s64 (pos + 2), on_disk_size ump pos)].
Proof.
  unfold sqsh_metadata_read, on_disk_size.
  intros H. apply bind_Ret_inv in H. destruct H as (raw & l1 & Hraw & H).
  unfold sqsh_io_read_buf in Hraw. injection Hraw as <- <-.
  pose proof (metadata_header_size_range
                (le_combine (backing_bytes ump pos 2))) as Hsz.
  destruct (Z.eqb_spec (Z.of_nat (length (backing_bytes ump pos 2))) 2)
    as [E2 | E2]; cbn [negb] in H; [ | discriminate H].
  destruct (sqsh_metadata_header (le_combine (backing_bytes ump pos 2)))
    as [c sz]; cbn [snd] in *.
  apply bind_Ret_inv in H. destruct H as (b & l2 & Hb & H).
  unfold ret in H. injection H as <- <- <-.
  change (u64 (0 + 2)) with 2.
  unfold sqsh_block_read in Hb.
  apply bind_Ret_inv in Hb. destruct Hb as (data & l3 & Hdata & Hb).
  unfold sqsh_io_read_buf in Hdata. injection Hdata as <- <-.
  destruct (Z.eqb_spec (Z.of_nat (length (backing_bytes ump (s64 (pos + 2)) sz))) sz)
    as [Es | Es]; cbn [negb] in Hb; [ | discriminate Hb].
  assert (Hblk : 0 <= b_size b < 2 ^ 64 /\ l2 = (l ++ [(pos, 2)]) ++ [(s64 (pos + 2), sz)]).
  { destruct c.
    - destruct (decompressor ump _ sz SQUASHFS_METADATA_SIZE) as [[ | ] [d n]];
        [ | discriminate Hb].
      injection Hb as <- <-. cbn [b_size]. split; [apply u64_range | reflexivity].
    - injection Hb as <- <-. cbn [b_size]. split; [lia | reflexivity]. }
  destruct Hblk as [Hrange ->].
  repeat split; try lia; try assumption.
  - apply u64_small; lia.
  - rewrite <- app_assoc. reflexivity.
Qed.

(** On a store [off_t] can address, a block that was read lies inside the
    store, and its footprint is at least three bytes. *)
Lemma metadata_read_in_image ump pos l dsz blk l' :
  image_addressable ump ->
  sqsh_metadata_read ump pos l = (Ret (dsz, blk), l') ->
  0 <= pos /\ 3 <= dsz /\ pos + dsz <= Z.of_nat (length (image ump)).
Proof.
  unfold image_addressable. intros Himg H.
  apply metadata_read_inv in H.
  destruct H as (H2 & -> & Hs & _ & _).
  pose proof (metadata_header_size_range
                (le_combine (backing_bytes ump pos 2))) as Hsz.
  fold (on_disk_size ump pos) in Hsz.
  apply backing_bytes_full in H2; [ | lia].
  rewrite s64_small in Hs by lia.
  apply backing_bytes_full in Hs; lia.
Qed.

Lemma metadata_read_not_fuel ump pos l :
  fst (sqsh_metadata_read ump pos l) <> Fuel.
Proof.
  unfold sqsh_metadata_read, bind, sqsh_io_read_buf, sqsh_block_read, bind,
    sqsh_io_read_buf, fail, ret.
  destruct (Z.of_nat (length (backing_bytes ump pos 2)) =? 2);
    cbn [negb fst]; [ | discriminate].
  destruct (sqsh_metadata_header _) as [c sz].
  destruct (Z.of_nat (length (backing_bytes ump (s64 (pos + 2)) sz)) =? sz);
    cbn [negb fst]; [ | discriminate].
  destruct c; cbn [fst]; [ | discriminate].
  destruct (decompressor ump _ sz SQUASHFS_METADATA_SIZE) as [[ | ] [d n]];
    cbn [fst]; discriminate.
Qed.

(** The value a block read returns does not depend on the log it extends. *)
Lemma metadata_read_any_log ump pos l1 l2 :
  fst (sqsh_metadata_read ump pos l1) = fst (sqsh_metadata_read ump pos l2).
Proof.
  unfold sqsh_metadata_read, bind, sqsh_io_read_buf, sqsh_block_read, bind,
    sqsh_io_read_buf, fail, ret.
  destruct (Z.of_nat (length (backing_bytes ump pos 2)) =? 2);
    cbn [negb fst]; [ | reflexivity].
  destruct (sqsh_metadata_header _) as [c sz].
  destruct (Z.of_nat (length (backing_bytes ump (s64 (pos + 2)) sz)) =? sz);
    cbn [negb fst]; [ | reflexivity].
  destruct c; cbn [fst]; [ | reflexivity].
  destruct (decompressor ump _ sz SQUASHFS_METADATA_SIZE) as [[ | ] [d n]];
    reflexivity.
Qed.

(** ** The cursor loop *)

Lemma body_Ret_inv ump buf st l st' l' :
  metadata_get_body ump buf st l = (Ret st', l') ->
  exists dsz blk,
    sqsh_metadata_read ump (g_pos st) l = (Ret (dsz, blk), l')
    /\ st' = get_advance buf st dsz blk.
Proof.
  unfold metadata_get_body. intros H.
  apply bind_Ret_inv in H. destruct H as ([dsz blk] & l1 & Hr & H).
  unfold ret in H. injection H as <- <-.
  exists dsz, blk. split; [exact Hr | reflexivity].
Qed.

Lemma body_not_fuel ump buf st l :
  fst (metadata_get_body ump buf st l) <> Fuel.
Proof.
  unfold metadata_get_body, bind.
  pose proof (metadata_read_not_fuel ump (g_pos st) l) as H.
  destruct (sqsh_metadata_read ump (g_pos st) l) as [[[dsz blk] | | ] l1];
    cbn in *; congruence.
Qed.

(** An iteration that does not exhaust its block delivered everything that
    was still wanted. *)
Lemma advance_tracks buf st dsz blk :
  0 <= b_size blk < 2 ^ 64 ->
  pos_tracks_cursor (get_advance buf st dsz blk).
Proof.
  intros Hb. unfold pos_tracks_cursor, get_advance, get_take.
  cbn [g_size g_pos g_cur].
  destruct (Z.eqb_spec (u64 (offset (g_cur st)
              + (if u64 (b_size blk - offset (g_cur st)) >? g_size st
                 then g_size st
                 else u64 (b_size blk - offset (g_cur st)))))
              (b_size blk)) as [E | E]; cbn [block].
  - reflexivity.
  - destruct (u64 (b_size blk - offset (g_cur st)) >? g_size st).
    + rewrite Z.sub_diag. change (u64 0) with 0. intros H; lia.
    + exfalso. apply E. rewrite u64_add_idemp.
      replace (offset (g_cur st) + (b_size blk - offset (g_cur st)))
        with (b_size blk) by ring.
      apply u64_small. exact Hb.
Qed.

Lemma reaches_tracks ump buf s s' :
  get_reaches ump buf s s' ->
  pos_tracks_cursor (fst s) -> pos_tracks_cursor (fst s').
Proof.
  induction 1 as [s | st l st' l' s'' Hsz Hbody Hreach IH]; intros Hinv.
  - exact Hinv.
  - apply IH. cbn [fst].
    apply body_Ret_inv in Hbody. destruct Hbody as (dsz & blk & Hr & ->).
    apply advance_tracks.
    apply metadata_read_inv in Hr. tauto.
Qed.

Lemma body_enough ump buf fuel st l st' l' :
  image_addressable ump ->
  enough_fuel ump (S fuel) st ->
  metadata_get_body ump buf st l = (Ret st', l') ->
  enough_fuel ump fuel st'.
Proof.
  intros Himg [_ Hf] Hbody.
  apply body_Ret_inv in Hbody. destruct Hbody as (dsz & blk & Hr & ->).
  pose proof (metadata_read_in_image _ _ _ _ _ _ Himg Hr) as (Hp & Hd & Hle).
  unfold image_addressable in Himg.
  unfold enough_fuel, get_advance; cbn [g_pos].
  rewrite s64_small by lia.
  specialize (Hf Hp). lia.
Qed.

(** With enough fuel the result does not depend on the fuel. *)
Lemma metadata_get_loop_fuel_irrelevant ump buf :
  image_addressable ump ->
  forall f1 f2 st l,
    enough_fuel ump f1 st -> enough_fuel ump f2 st ->
    metadata_get_loop ump buf f1 st l = metadata_get_loop ump buf f2 st l.
Proof.
  intros Himg. induction f1 as [ | f1 IH]; intros f2 st l H1 H2.
  - destruct H1 as [H1 _]. lia.
  - destruct f2 as [ | f2]; [destruct H2 as [H2 _]; lia | ].
    cbn [metadata_get_loop].
    destruct (g_size st >? 0); [ | reflexivity].
    unfold bind.
    destruct (metadata_get_body ump buf st l) as [[st' | | ] l'] eqn:Hbody;
      try reflexivity.
    apply IH; eapply body_enough; eassumption.
Qed.

(** With enough fuel the loop ends by itself: it returns or fails, and the
    budget is never what stops it. *)
Lemma metadata_get_loop_fuel ump buf :
  image_addressable ump ->
  forall fuel st l,
    enough_fuel ump fuel st ->
    fst (metadata_get_loop ump buf fuel st l) <> Fuel.
Proof.
  intros Himg. induction fuel as [ | fuel IH]; intros st l Hf.
  - destruct Hf as [Hf _]. lia.
  - cbn [metadata_get_loop].
    destruct (g_size st >? 0); [ | cbn; discriminate].
    unfold bind. pose proof (body_not_fuel ump buf st l) as Hnf.
    destruct (metadata_get_body ump buf st l) as [[st' | | ] l'] eqn:Hbody;
      cbn [fst] in *; try congruence.
    apply IH. eapply body_enough; eassumption.
Qed.

Lemma init_enough ump cur size :
  enough_fuel ump (S (length (image ump))) (get_init cur size).
Proof. unfold enough_fuel, get_init; cbn [g_pos]. split; lia. Qed.

(** [sqsh_metadata_get] is total: it returns [SQFS_OK] or [SQFS_ERR]. *)
Lemma sqsh_metadata_get_total ump cur buf size l :
  image_addressable ump ->
  fst (sqsh_metadata_get ump cur buf size l) <> Fuel.
Proof.
  intros Himg. unfold sqsh_metadata_get, bind.
  pose proof (metadata_get_loop_fuel ump buf Himg _ _ l (init_enough ump cur size))
    as H.
  destruct (metadata_get_loop ump buf (S (length (image ump)))
              (get_init cur size) l) as [[st | | ] l']; cbn in *; congruence.
Qed.

(** What the loop computes from a state it reaches is what it computes from
    where it started. *)
Lemma reaches_loop ump buf s s' :
  image_addressable ump ->
  get_reaches ump buf s s' ->
  forall f, enough_fuel ump f (fst s) ->
  exists f', enough_fuel ump f' (fst s')
             /\ metadata_get_loop ump buf f (fst s) (snd s)
                = metadata_get_loop ump buf f' (fst s') (snd s').
Proof.
  intros Himg. induction 1 as [s | st l st' l' s'' Hsz Hbody Hreach IH];
    intros f Hf.
  - exists f. split; [exact Hf | reflexivity].
  - cbn [fst snd] in *. destruct f as [ | f]; [destruct Hf as [Hf _]; lia | ].
    destruct (IH f (body_enough _ _ _ _ _ _ _ Himg Hf Hbody)) as (f' & Hf' & E).
    exists f'. split; [exact Hf' | ].
    cbn [metadata_get_loop].
    rewrite (proj2 (Z.gtb_lt _ _) Hsz).
    rewrite (bind_Ret _ _ _ _ _ Hbody). exact E.
Qed.

Lemma loop_done ump buf fuel st l :
  g_size st = 0 -> metadata_get_loop ump buf fuel st l = (Ret st, l).
Proof.
  intros E. destruct fuel; cbn [metadata_get_loop]; rewrite E; reflexivity.
Qed.

(** ** C3: a copy that exhausts its block *)

(** C3.  In every call of [sqsh_metadata_get] (on a store [off_t] can
    address), take any iteration of the loop whose block was read and whose
    copy exactly exhausts that block: [cur->offset + take] equals the
    block's decompressed size.  The block read is the one [cur->block]
    names; its footprint [dsz] is 2 plus the on-disk payload size of its
    header; the iteration completes, leaving the cursor at
    [(cur->block + dsz, 0)]; and if nothing is left to deliver, that cursor
    is the one the call returns with [SQFS_OK]. *)
Theorem C3_exhausting_copy_advances_block (ump : sqsh_mount) (buf : bool)
    (cur : sqsh_block_run) (size0 : Z) (l0 : io_log)
    (st : get_state) (l : io_log) (dsz : Z) (blk : sqsh_block) (l' : io_log) :
  image_addressable ump ->
  get_reaches ump buf (get_init cur size0, l0) (st, l) ->
  0 < g_size st ->
  sqsh_metadata_read ump (g_pos st) l = (Ret (dsz, blk), l') ->
  offset (g_cur st) + get_take blk st = b_size blk ->
  let st' := get_advance buf st dsz blk in
  g_pos st = block (g_cur st)
  /\ dsz = 2 + on_disk_size ump (block (g_cur st))
  /\ metadata_get_body ump buf st l = (Ret st', l')
  /\ g_cur st' = {| block := block (g_cur st) + dsz; offset := 0 |}
  /\ (g_size st' = 0 ->
      sqsh_metadata_get ump cur buf size0 l0 = (Ret (g_cur st', g_out st'), l')).
Proof.
  intros Himg Hreach Hsz Hr Hex st'.
  assert (Hpos : g_pos st = block (g_cur st)).
  { apply (reaches_tracks _ _ _ _ Hreach); [ | exact Hsz].
    intros _; reflexivity. }
  pose proof (metadata_read_inv _ _ _ _ _ _ Hr) as (_ & Hd & _ & Hb & _).
  pose proof (metadata_read_in_image _ _ _ _ _ _ Himg Hr) as (Hp & Hd3 & Hle).
  assert (Hbody : metadata_get_body ump buf st l = (Ret st', l')).
  { unfold metadata_get_body. rewrite (bind_Ret _ _ _ _ _ Hr). reflexivity. }
  assert (Hcur : g_cur st' = {| block := block (g_cur st) + dsz; offset := 0 |}).
  { subst st'. unfold get_advance; cbn [g_cur].
    rewrite Hex, (u64_small _ Hb), Z.eqb_refl.
    unfold image_addressable in Himg.
    rewrite s64_small by lia. rewrite Hpos. reflexivity. }
  repeat split.
  - exact Hpos.
  - rewrite <- Hpos. exact Hd.
  - exact Hbody.
  - exact Hcur.
  - intros Hdone. unfold sqsh_metadata_get.
    destruct (reaches_loop _ _ _ _ Himg Hreach _ (init_enough ump cur size0))
      as (f & Hf & E).
    cbn [fst snd] in E, Hf.
    destruct f as [ | f]; [destruct Hf as [Hf _]; lia | ].
    cbn [metadata_get_loop] in E.
    rewrite (proj2 (Z.gtb_lt _ _) Hsz) in E.
    rewrite (bind_Ret _ _ _ _ _ Hbody) in E.
    rewrite (loop_done _ _ _ _ _ Hdone) in E.
    rewrite (bind_Ret _ _ _ _ _ E). reflexivity.
Qed.

(** A pull of 40 bytes over the two raw blocks of 16 and 24 bytes: the first
    iteration exhausts the first block, the second exhausts the second and
    ends the call with the cursor at [(44, 0)]. *)
Lemma C3_exhausting_copy_advances_block_witness :
  let ump := Samples.two_block_mount in
  let cur := {| block := 0; offset := 0 |} in
  let st := {| g_pos := 18; g_cur := {| block := 18; offset := 0 |};
               g_size := 24; g_out := repeat x01 16 |} in
  let blk := {| b_data := repeat x02 24; b_size := 24 |} in
  let l := [(0, 2); (2, 16)] in
  let l' := [(0, 2); (2, 16); (18, 2); (20, 24)] in
  let st' := get_advance true st 26 blk in
  g_pos st = block (g_cur st)
  /\ 26 = 2 + on_disk_size ump (block (g_cur st))
  /\ metadata_get_body ump true st l = (Ret st', l')
  /\ g_cur st' = {| block := 18 + 26; offset := 0 |}
  /\ (g_size st' = 0 ->
      sqsh_metadata_get ump cur true 40 [] = (Ret (g_cur st', g_out st'), l')).
Proof.
  intros ump cur st blk l l' st'.
  apply (C3_exhausting_copy_advances_block ump true cur 40 [] st l 26 blk l').
  - unfold image_addressable. vm_compute. reflexivity.
  - eapply reach_step.
    + cbn. lia.
    + vm_compute. reflexivity.
    + apply reach_here.
  - cbn. lia.
  - vm_compute. reflexivity.
  - vm_compute. reflexivity.
Defined.

(** A pull that stays strictly inside the block the cursor names reads that
    block once and moves only the offset. *)
Lemma metadata_get_within_block ump cur buf n l dsz blk l1 :
  sqsh_metadata_read ump (block cur) l = (Ret (dsz, blk), l1) ->
  0 <= offset cur -> 0 < n -> offset cur + n < b_size blk ->
  sqsh_metadata_get ump cur buf n l
  = (Ret ({| block := block cur; offset := offset cur + n |},
          if buf
          then firstn (Z.to_nat n) (skipn (Z.to_nat (offset cur)) (b_data blk))
          else []),
     l1).
Proof.
  intros Hr Ho Hn Hin.
  pose proof (metadata_read_inv _ _ _ _ _ _ Hr) as (_ & _ & _ & Hb & _).
  assert (Htake : get_take blk (get_init cur n) = n).
  { unfold get_take, get_init; cbn [g_cur g_size].
    rewrite u64_small by lia.
    rewrite (proj2 (Z.gtb_lt _ _)) by lia. reflexivity. }
  assert (Hbody : metadata_get_body ump buf (get_init cur n) l
                  = (Ret (get_advance buf (get_init cur n) dsz blk), l1)).
  { unfold metadata_get_body.
    change (g_pos (get_init cur n)) with (block cur).
    rewrite (bind_Ret _ _ _ _ _ Hr). reflexivity. }
  assert (Hloop : metadata_get_loop ump buf (S (length (image ump)))
                    (get_init cur n) l
                  = (Ret (get_advance buf (get_init cur n) dsz blk), l1)).
  { cbn [metadata_get_loop].
    change (g_size (get_init cur n)) with n.
    rewrite (proj2 (Z.gtb_lt _ _) Hn).
    rewrite (bind_Ret _ _ _ _ _ Hbody).
    apply loop_done.
    unfold get_advance; cbn [g_size]. rewrite Htake.
    change (g_size (get_init cur n)) with n.
    rewrite Z.sub_diag. reflexivity. }
  unfold sqsh_metadata_get. rewrite (bind_Ret _ _ _ _ _ Hloop).
  unfold ret, get_advance. rewrite Htake.
  cbn [g_cur g_out get_init]. rewrite (u64_small (offset cur + n)) by lia.
  destruct (Z.eqb_spec (offset cur + n) (b_size blk)) as [E | _]; [lia | ].
  destruct buf; reflexivity.
Qed.

(** ** The inode resolver *)

Ltac init_branch E :=
  let H := fresh "H" in
  let nx := fresh "nx" in
  let raw := fresh "raw" in
  let l1 := fresh "l1" in
  let Hg := fresh "Hg" in
  cbn [orb]; intros H;
  apply bind_Ret_inv in H; destruct H as ([nx raw] & l1 & Hg & H);
  unfold ret in H; injection H as <- <-;
  exists raw; cbn [base type next];
  repeat split; [exact Hg | rewrite E; vm_compute; discriminate].

Ltac switch_on c :=
  match goal with
  | |- context [?t =? c] =>
      let E := fresh "E" in
      destruct (Z.eqb_spec t c) as [E | ?]; [init_branch E | cbn [orb]]
  end.

Lemma switch_Ret_inv ump i l i' l' :
  sqsh_get_inode_switch ump i l = (Ret i', l') ->
  exists raw,
    sqsh_metadata_get ump (next i) true
      (inode_record_size (inode_type (base i))) l = (Ret (next i', raw), l')
    /\ base i' = base i /\ type i' = type i
    /\ sqsh_inode_type (inode_type (base i)) <> VBAD.
Proof.
  unfold sqsh_get_inode_switch, inode_record_size,
    sqsh_init_reg_inode, sqsh_init_lreg_inode, sqsh_init_dir_inode,
    sqsh_init_ldir_inode, sqsh_init_symlink_inode, sqsh_init_dev_inode,
    sqsh_init_ldev_inode, sqsh_init_ipc_inode, sqsh_init_lipc_inode.
  cbv zeta.
  switch_on SQUASHFS_REG_TYPE.
  switch_on SQUASHFS_LREG_TYPE.
  switch_on SQUASHFS_DIR_TYPE.
  switch_on SQUASHFS_LDIR_TYPE.
  switch_on SQUASHFS_SYMLINK_TYPE.
  switch_on SQUASHFS_LSYMLINK_TYPE.
  switch_on SQUASHFS_BLKDEV_TYPE.
  switch_on SQUASHFS_CHRDEV_TYPE.
  switch_on SQUASHFS_LBLKDEV_TYPE.
  switch_on SQUASHFS_LCHRDEV_TYPE.
  switch_on SQUASHFS_SOCKET_TYPE.
  switch_on SQUASHFS_FIFO_TYPE.
  switch_on SQUASHFS_LSOCKET_TYPE.
  switch_on SQUASHFS_LFIFO_TYPE.
  unfold fail. intros H; discriminate H.
Qed.

Lemma inode_record_size_min t : 20 <= inode_record_size t.
Proof.
  unfold inode_record_size.
  repeat match goal with
         | |- context [if ?c then _ else _] => destruct c
         end; vm_compute; discriminate.
Qed.

Lemma verify_OK_inv ump i :
  sqsh_verify_inode ump i = SQFS_OK ->
  SQUASHFS_TYPE_MIN_VALID <= inode_type (base i) <= SQUASHFS_TYPE_MAX_VALID
  /\ 1 <= inode_number (base i) <= sb_inodes (sb ump)
  /\ (inode_type (base i) = SQUASHFS_DIR_TYPE ->
      1 <= xtra_dir_parent_inode (xtra i) <= u32 (sb_inodes (sb ump) + 1)).
Proof.
  unfold sqsh_verify_inode, SQUASHFS_INODE_MIN_COUNT.
  destruct (Z.ltb_spec (inode_type (base i)) SQUASHFS_TYPE_MIN_VALID);
    cbn [orb]; [discriminate | ].
  destruct (Z.gtb_spec (inode_type (base i)) SQUASHFS_TYPE_MAX_VALID);
    [discriminate | ].
  destruct (Z.ltb_spec (inode_number (base i)) 1); cbn [orb]; [discriminate | ].
  destruct (Z.gtb_spec (inode_number (base i)) (sb_inodes (sb ump)));
    [discriminate | ].
  destruct (Z.eqb_spec (inode_type (base i)) SQUASHFS_DIR_TYPE) as [E | N];
    cbn [andb].
  - destruct (Z.ltb_spec (xtra_dir_parent_inode (xtra i)) 1); cbn [orb];
      [discriminate | ].
    destruct (Z.gtb_spec (xtra_dir_parent_inode (xtra i))
                (u32 (sb_inodes (sb ump) + 1))); [discriminate | ].
    intros _. split; [lia | split; [lia | intros _; lia]].
  - intros _. split; [lia | split; [lia | intros E; contradiction]].
Qed.

Lemma get_inode_Ret_inv ump id l inode l' :
  sqsh_get_inode ump id l = (Ret inode, l') ->
  let seed := sqsh_metadata_run_inode id (sb_inode_table_start (sb ump)) in
  exists cur1 raw l1 raw',
    sqsh_metadata_get ump seed true sizeof_base_inode l = (Ret (cur1, raw), l1)
    /\ base inode = swapendian_base_inode raw
    /\ type inode = sqsh_inode_type (inode_type (base inode))
    /\ sqsh_metadata_get ump seed true
         (inode_record_size (inode_type (base inode))) l1
       = (Ret (next inode, raw'), l')
    /\ type inode <> VBAD
    /\ sqsh_verify_inode ump inode = SQFS_OK.
Proof.
  intros H. cbv zeta. unfold sqsh_get_inode in H.
  set (seed := sqsh_metadata_run_inode id (sb_inode_table_start (sb ump))) in *.
  apply bind_Ret_inv in H. destruct H as ([cur1 raw] & l1 & Hbase & H).
  apply bind_Ret_inv in H. destruct H as (i & l2 & Hsw & H).
  destruct (sqsh_verify_inode ump i) eqn:Hv; [ | discriminate H].
  unfold ret in H. injection H as <- <-.
  apply switch_Ret_inv in Hsw.
  destruct Hsw as (raw' & Hg & Hbase' & Htype & Hbad).
  cbn [inode_after_base base type next] in *.
  exists cur1, raw, l1, raw'.
  rewrite Hbase', Htype. repeat split; assumption.
Qed.

(** ** C1: what a successful lookup guarantees *)

(** C1.  For every mount and every inode id for which [sqsh_get_inode]
    returns [SQFS_OK], the inode returned has its [inode_number] in the
    closed range [1, superblock.inodes] and a node-kind tag other than
    [VBAD]. *)
Theorem C1_get_inode_number_and_kind (ump : sqsh_mount) (id : Z)
    (l : io_log) (inode : sqsh_inode) (l' : io_log) :
  sqsh_get_inode ump id l = (Ret inode, l') ->
  1 <= inode_number (base inode) <= sb_inodes (sb ump)
  /\ type inode <> VBAD.
Proof.
  intros H. apply get_inode_Ret_inv in H.
  destruct H as (cur1 & raw & l1 & raw' & _ & _ & _ & _ & Hbad & Hv).
  apply verify_OK_inv in Hv. destruct Hv as (_ & Hnum & _).
  split; assumption.
Qed.

Lemma C1_get_inode_number_and_kind_witness :
  exists inode l',
    sqsh_get_inode Samples.reg_mount 0 [] = (Ret inode, l')
    /\ 1 <= inode_number (base inode) <= sb_inodes (sb Samples.reg_mount)
    /\ type inode <> VBAD.
Proof.
  eexists. eexists. split.
  - vm_compute. reflexivity.
  - eapply (C1_get_inode_number_and_kind Samples.reg_mount 0 []).
    vm_compute. reflexivity.
Defined.

(** ** C4: the parent of a directory *)

(** For the compact directory type code the parent is checked: a [DIR]
    inode that is returned has its parent in [1, inodes + 1]. *)
Lemma get_inode_dir_parent_range ump id l inode l' :
  0 <= sb_inodes (sb ump) ->
  sqsh_get_inode ump id l = (Ret inode, l') ->
  inode_type (base inode) = SQUASHFS_DIR_TYPE ->
  1 <= xtra_dir_parent_inode (xtra inode) <= sb_inodes (sb ump) + 1.
Proof.
  intros Hn H Hdir. apply get_inode_Ret_inv in H.
  destruct H as (cur1 & raw & l1 & raw' & _ & _ & _ & _ & _ & Hv).
  apply verify_OK_inv in Hv. destruct Hv as (_ & _ & Hpar).
  specialize (Hpar Hdir).
  assert (u32 (sb_inodes (sb ump) + 1) <= sb_inodes (sb ump) + 1)
    by (unfold u32; apply Z.mod_le; lia).
  lia.
Qed.

(** On a mount of three inodes, a compact directory whose parent is 4 (the
    slot of the root's parent) is returned, and one whose parent is 5 is
    rejected. *)
Lemma dir_parent_checked :
  (exists inode l',
      sqsh_get_inode Samples.dir_root_mount 0 [] = (Ret inode, l')
      /\ xtra_dir_parent_inode (xtra inode) = 3 + 1)
  /\ fst (sqsh_get_inode Samples.dir_bad_parent_mount 0 []) = Err.
Proof.
  split; [eexists; eexists; split | ]; vm_compute; reflexivity.
Qed.

(** C4 (the code at the failing input).  On a mount of three inodes, an
    extended directory ([LDIR]) whose parent_inode is 5, that is
    [inodes + 2], is returned with [SQFS_OK] and the directory node kind:
    [sqsh_verify_inode] compares the parent only for the type code [DIR]. *)
Theorem C4_ldir_parent_unchecked :
  exists inode l',
    sqsh_get_inode Samples.ldir_bad_parent_mount 0 [] = (Ret inode, l')
    /\ inode_type (base inode) = SQUASHFS_LDIR_TYPE
    /\ type inode = VDIR
    /\ xtra_dir_parent_inode (xtra inode)
       = sb_inodes (sb Samples.ldir_bad_parent_mount) + 2.
Proof.
  eexists. eexists. split; [vm_compute; reflexivity | ].
  repeat split.
Qed.

(** ** C7: where [inode.next] points *)

(** C7, as stated, fails: on a mount whose inode table starts at 0x1000 and
    whose first metadata block holds 40 bytes, the lookup of id 0 succeeds
    without crossing a block boundary and returns [inode.next] equal to
    [(0x1000, 32)], not [(0x1000, 16)]. *)
Lemma C7_next_is_past_whole_record :
  sb_inode_table_start (sb Samples.reg_mount) = 0x1000
  /\ (exists blk,
        fst (sqsh_metadata_read Samples.reg_mount 0x1000 []) = Ret (42, blk)
        /\ b_size blk = 40)
  /\ exists inode l',
      sqsh_get_inode Samples.reg_mount 0 [] = (Ret inode, l')
      /\ next inode = {| block := 0x1000; offset := 32 |}
      /\ next inode <> {| block := 0x1000; offset := 16 |}.
Proof.
  split; [reflexivity | split].
  - eexists. split; vm_compute; reflexivity.
  - eexists. eexists. split; [vm_compute; reflexivity | ].
    split; [reflexivity | ]. intros H; discriminate H.
Qed.

(** C7 (amended).  For [sqsh_get_inode] called with id 0 on a mount whose
    inode table starts at 0x1000, the seeded cursor is [(0x1000, 0)].  When
    the block there holds more than 16 bytes, the base-header pull takes the
    16 bytes at its start and moves the resolver's local cursor to
    [(0x1000, 16)].  The variant decoder then pulls the whole record of [R]
    bytes, base header included and [R] above 16, through [inode.next] from
    the seed; so when the block holds more than [R] bytes the call returns
    with [inode.next = (0x1000, R)]. *)
Theorem C7_next_spans_whole_record (ump : sqsh_mount) (l : io_log)
    (inode : sqsh_inode) (l' : io_log) (dsz : Z) (blk : sqsh_block) :
  sb_inode_table_start (sb ump) = 0x1000 ->
  sqsh_get_inode ump 0 l = (Ret inode, l') ->
  fst (sqsh_metadata_read ump 0x1000 []) = Ret (dsz, blk) ->
  let seed := sqsh_metadata_run_inode 0 0x1000 in
  let R := inode_record_size (inode_type (base inode)) in
  seed = {| block := 0x1000; offset := 0 |}
  /\ (16 < b_size blk ->
      exists l1,
        sqsh_metadata_get ump seed true sizeof_base_inode l
        = (Ret ({| block := 0x1000; offset := 16 |}, firstn 16 (b_data blk)), l1)
        /\ base inode = swapendian_base_inode (firstn 16 (b_data blk)))
  /\ 16 < R
  /\ (R < b_size blk -> next inode = {| block := 0x1000; offset := R |}).
Proof.
  intros Hstart H Hblk. cbv zeta.
  apply get_inode_Ret_inv in H. cbv zeta in H. rewrite Hstart in H.
  change (sqsh_metadata_run_inode 0 0x1000)
    with {| block := 0x1000; offset := 0 |} in *.
  set (seed := {| block := 0x1000; offset := 0 |}) in *.
  set (R := inode_record_size (inode_type (base inode))) in *.
  destruct H as (cur1 & raw & l1 & raw' & Hbase & Hb & _ & Hrec & _ & _).
  pose proof (inode_record_size_min (inode_type (base inode))) as HR.
  fold R in HR.
  assert (Hread : forall la, exists lb,
             sqsh_metadata_read ump (block seed) la = (Ret (dsz, blk), lb)).
  { intros la. change (block seed) with 0x1000.
    pose proof (metadata_read_any_log ump 0x1000 la []) as E.
    rewrite Hblk in E.
    destruct (sqsh_metadata_read ump 0x1000 la) as [r lb]. cbn [fst] in E.
    subst r. exists lb. reflexivity. }
  split; [reflexivity | split; [ | split; [lia | ]]].
  - intros Hbig. destruct (Hread l) as (lb & Hr).
    pose proof (metadata_get_within_block ump seed true 16 l dsz blk lb Hr) as G.
    change (offset seed) with 0 in G. change (block seed) with 0x1000 in G.
    specialize (G ltac:(lia) ltac:(lia) Hbig).
    change (0 + 16) with 16 in G.
    change (firstn (Z.to_nat 16) (skipn (Z.to_nat 0) (b_data blk)))
      with (firstn 16 (b_data blk)) in G.
    change sizeof_base_inode with 16 in Hbase |- *.
    rewrite G in Hbase. injection Hbase as <- <- <-.
    exists lb. split; [exact G | exact Hb].
  - intros Hbig. destruct (Hread l1) as (lb & Hr).
    pose proof (metadata_get_within_block ump seed true R l1 dsz blk lb Hr) as G.
    change (offset seed) with 0 in G. change (block seed) with 0x1000 in G.
    specialize (G ltac:(lia) ltac:(lia) Hbig).
    rewrite G in Hrec. injection Hrec as <- _ _.
    reflexivity.
Qed.

Lemma C7_next_spans_whole_record_witness :
  exists inode l' dsz blk,
    sb_inode_table_start (sb Samples.reg_mount) = 0x1000
    /\ sqsh_get_inode Samples.reg_mount 0 [] = (Ret inode, l')
    /\ fst (sqsh_metadata_read Samples.reg_mount 0x1000 []) = Ret (dsz, blk)
    /\ sqsh_metadata_run_inode 0 0x1000 = {| block := 0x1000; offset := 0 |}
    /\ (16 < b_size blk ->
        exists l1,
          sqsh_metadata_get Samples.reg_mount (sqsh_metadata_run_inode 0 0x1000)
            true sizeof_base_inode []
          = (Ret ({| block := 0x1000; offset := 16 |}, firstn 16 (b_data blk)),
             l1)
          /\ base inode = swapendian_base_inode (firstn 16 (b_data blk)))
    /\ 16 < inode_record_size (inode_type (base inode))
    /\ (inode_record_size (inode_type (base inode)) < b_size blk ->
        next inode
        = {| block := 0x1000;
             offset := inode_record_size (inode_type (base inode)) |}).
Proof.
  eexists. eexists. eexists. eexists.
  split; [reflexivity | ].
  split; [vm_compute; reflexivity | ].
  split; [vm_compute; reflexivity | ].
  eapply (C7_next_spans_whole_record Samples.reg_mount []).
  - reflexivity.
  - vm_compute. reflexivity.
  - vm_compute. reflexivity.
Defined.

(** * Further properties of the code *)

(** ** [sqsh_ceil] *)

(** X1.  For a positive [group], [sqsh_ceil total group] is the ceiling of
    [total / group]: the least [r] with [total <= group * r].  The
    increment never wraps around. *)
Theorem X1_sqsh_ceil_is_ceiling (total group : Z) :
  0 <= total < 2 ^ 64 -> 0 < group < 2 ^ 64 ->
  total <= group * sqsh_ceil total group < total + group
  /\ 0 <= sqsh_ceil total group < 2 ^ 64.
Proof.
  intros Ht Hg. unfold sqsh_ceil.
  pose proof (Z.div_mod total group ltac:(lia)) as Hdm.
  pose proof (Z.mod_pos_bound total group ltac:(lia)) as Hm.
  assert (Hq : 0 <= total / group) by (apply Z.div_pos; lia).
  assert (Hq' : total / group <= total)
    by (apply Z.div_le_upper_bound; nia).
  rewrite (u64_small (total / group)) by lia.
  destruct (Z.eqb_spec (total mod group) 0) as [E | N]; cbn [negb].
  - split; nia.
  - assert (2 <= group) by (destruct (Z.eq_dec group 1) as [-> | ];
                            [rewrite Z.mod_1_r in N; lia | lia]).
    assert (total / group < 2 ^ 63) by nia.
    rewrite u64_small by lia. split; nia.
Qed.

Lemma X1_sqsh_ceil_is_ceiling_witness :
  0 <= 8193 < 2 ^ 64 /\ 0 < 8192 < 2 ^ 64
  /\ 8193 <= 8192 * sqsh_ceil 8193 8192 < 8193 + 8192
  /\ 0 <= sqsh_ceil 8193 8192 < 2 ^ 64.
Proof.
  split; [lia | split; [lia | apply (X1_sqsh_ceil_is_ceiling 8193 8192); lia]].
Defined.

(** ** Inode ids *)

(** X2.  [sqsh_metadata_run_inode] splits an inode id into the block
    [base + id / 2^16] and the offset [id mod 2^16], which is what the macro
    [SQUASHFS_INODE_OFFSET] gives; the cursor determines the id. *)
Theorem X2_run_inode_splits_id (id base : Z) :
  0 <= id < 2 ^ 64 -> 0 <= base -> base + id / 2 ^ 16 < 2 ^ 63 ->
  let cur := sqsh_metadata_run_inode id base in
  block cur = base + id / 2 ^ 16
  /\ offset cur = id mod 2 ^ 16
  /\ offset cur = SQUASHFS_INODE_OFFSET id
  /\ id = 2 ^ 16 * (block cur - base) + offset cur.
Proof.
  intros Hid Hb Hsum. cbv zeta.
  unfold sqsh_metadata_run_inode, SQUASHFS_INODE_OFFSET; cbn [block offset].
  change 0xffff with (Z.ones 16).
  rewrite Z.land_ones, Z.shiftr_div_pow2 by lia.
  assert (Hq : 0 <= id / 2 ^ 16) by (apply Z.div_pos; lia).
  pose proof (Z.mod_pos_bound id (2 ^ 16) ltac:(lia)) as Hm.
  rewrite (u64_small (id / 2 ^ 16 + base)) by lia.
  rewrite s64_small by lia.
  rewrite u32_small by lia.
  pose proof (Z.div_mod id (2 ^ 16) ltac:(lia)) as Hdm.
  repeat split; lia.
Qed.

Lemma X2_run_inode_splits_id_witness :
  0 <= 0x30010 < 2 ^ 64 /\ 0 <= 0x1000 /\ 0x1000 + 0x30010 / 2 ^ 16 < 2 ^ 63
  /\ block (sqsh_metadata_run_inode 0x30010 0x1000) = 0x1000 + 0x30010 / 2 ^ 16
  /\ offset (sqsh_metadata_run_inode 0x30010 0x1000) = 0x30010 mod 2 ^ 16
  /\ offset (sqsh_metadata_run_inode 0x30010 0x1000)
     = SQUASHFS_INODE_OFFSET 0x30010
  /\ 0x30010
     = 2 ^ 16 * (block (sqsh_metadata_run_inode 0x30010 0x1000) - 0x1000)
       + offset (sqsh_metadata_run_inode 0x30010 0x1000).
Proof.
  split; [lia | split; [lia | split; [vm_compute; reflexivity | ]]].
  apply (X2_run_inode_splits_id 0x30010 0x1000); [lia | lia | ].
  vm_compute; reflexivity.
Defined.

(** ** Reading one block *)

(** X3.  A metadata block that [sqsh_metadata_read] returns lies inside the
    image: the call issued exactly two reads, of the 2-byte header at [pos]
    and of the payload right after it, and the footprint it reports is
    between 3 and 0x8002 bytes. *)
Theorem X3_metadata_read_stays_in_image (ump : sqsh_mount) (pos : Z)
    (l : io_log) (dsz : Z) (blk : sqsh_block) (l' : io_log) :
  image_addressable ump ->
  sqsh_metadata_read ump pos l = (Ret (dsz, blk), l') ->
  0 <= pos
  /\ 3 <= dsz <= 0x8002
  /\ pos + dsz <= Z.of_nat (length (image ump))
  /\ dsz = 2 + on_disk_size ump pos
  /\ l' = l ++ [(pos, 2); (pos + 2, dsz - 2)].
Proof.
  intros Himg H.
  pose proof (metadata_read_in_image _ _ _ _ _ _ Himg H) as (Hp & Hd & Hle).
  pose proof (metadata_read_inv _ _ _ _ _ _ H) as (_ & Hdz & _ & _ & Hl).
  pose proof (metadata_header_size_range
                (le_combine (backing_bytes ump pos 2))) as Hsz.
  fold (on_disk_size ump pos) in Hsz.
  unfold image_addressable in Himg.
  rewrite s64_small in Hl by lia.
  replace (dsz - 2) with (on_disk_size ump pos) by lia.
  repeat split; try lia; assumption.
Qed.

Lemma X3_metadata_read_stays_in_image_witness :
  let ump := Samples.two_block_mount in
  let blk := {| b_data := repeat x02 24; b_size := 24 |} in
  0 <= 18
  /\ 3 <= 26 <= 0x8002
  /\ 18 + 26 <= Z.of_nat (length (image ump))
  /\ 26 = 2 + on_disk_size ump 18
  /\ [(18, 2); (20, 24)] = [] ++ [(18, 2); (18 + 2, 26 - 2)].
Proof.
  intros ump blk.
  apply (X3_metadata_read_stays_in_image ump 18 [] 26 blk).
  - unfold image_addressable. vm_compute. reflexivity.
  - vm_compute. reflexivity.
Defined.

Lemma Ret_inj {A} (a b : A) : Ret a = Ret b -> a = b.
Proof. intros H. injection H as H. exact H. Qed.

Lemma backing_bytes_same_image ump ump' pos n :
  image ump = image ump' -> backing_bytes ump pos n = backing_bytes ump' pos n.
Proof. unfold backing_bytes. intros ->. reflexivity. Qed.

(** X4.  A metadata block whose header has bit 15 set is never handed to the
    decompressor: [sqsh_metadata_read] gives the same result on two mounts
    of the same image whatever their decompressors are, and the block it
    returns holds the payload bytes as stored. *)
Theorem X4_raw_block_not_decompressed (ump ump' : sqsh_mount) (pos : Z)
    (l : io_log) :
  image ump = image ump' ->
  Z.testbit (le_combine (backing_bytes ump pos 2)) 15 = true ->
  sqsh_metadata_read ump pos l = sqsh_metadata_read ump' pos l
  /\ forall dsz blk l',
       sqsh_metadata_read ump pos l = (Ret (dsz, blk), l') ->
       blk = {| b_data := backing_bytes ump (s64 (pos + 2)) (dsz - 2);
                b_size := dsz - 2 |}.
Proof.
  intros Himg Hbit.
  assert (Hflag : fst (sqsh_metadata_header
                         (le_combine (backing_bytes ump pos 2))) = false).
  { unfold sqsh_metadata_header, SQUASHFS_COMPRESSED_BIT; cbn [fst].
    rewrite flag_clear_iff by lia. rewrite Hbit. reflexivity. }
  pose proof (metadata_header_size_range
                (le_combine (backing_bytes ump pos 2))) as Hsz.
  split.
  - unfold sqsh_metadata_read, bind, sqsh_io_read_buf, sqsh_block_read, bind,
      sqsh_io_read_buf.
    rewrite <- !(backing_bytes_same_image ump ump' _ _ Himg).
    destruct (negb (Z.of_nat (length (backing_bytes ump pos 2)) =? 2));
      [reflexivity | ].
    destruct (sqsh_metadata_header (le_combine (backing_bytes ump pos 2)))
      as [c sz]. cbn [fst] in Hflag. subst c.
    rewrite <- !(backing_bytes_same_image ump ump' _ _ Himg). reflexivity.
  - intros dsz blk l' H.
    unfold sqsh_metadata_read, bind, sqsh_io_read_buf, sqsh_block_read, bind,
      sqsh_io_read_buf in H.
    destruct (negb (Z.of_nat (length (backing_bytes ump pos 2)) =? 2));
      [discriminate H | ].
    destruct (sqsh_metadata_header (le_combine (backing_bytes ump pos 2)))
      as [c sz]. cbn [fst snd] in Hflag, Hsz. subst c.
    destruct (negb (Z.of_nat (length (backing_bytes ump (s64 (pos + 2)) sz))
                    =? sz)); [discriminate H | ].
    unfold ret in H. apply pair_equal_spec in H. destruct H as [H _].
    apply Ret_inj in H. apply pair_equal_spec in H. destruct H as [Hd Hb].
    change (u64 (0 + 2)) with 2 in Hd.
    rewrite u64_small in Hd by lia.
    replace (dsz - 2) with sz by lia. symmetry. exact Hb.
Qed.

Lemma X4_raw_block_not_decompressed_witness :
  let ump := Samples.two_block_mount in
  let ump' := {| image := image Samples.two_block_mount;
                 sb := sb Samples.two_block_mount;
                 decompressor := Samples.overlong_decompressor |} in
  sqsh_metadata_read ump 0 [] = sqsh_metadata_read ump' 0 []
  /\ forall dsz blk l',
       sqsh_metadata_read ump 0 [] = (Ret (dsz, blk), l') ->
       blk = {| b_data := backing_bytes ump (s64 (0 + 2)) (dsz - 2);
                b_size := dsz - 2 |}.
Proof.
  intros ump ump'.
  apply (X4_raw_block_not_decompressed ump ump' 0 []).
  - reflexivity.
  - vm_compute. reflexivity.
Defined.

Lemma backing_bytes_inside ump pos n :
  0 <= n -> 0 <= pos -> pos + n <= Z.of_nat (length (image ump)) ->
  Z.of_nat (length (backing_bytes ump pos n)) = n.
Proof.
  unfold backing_bytes. intros Hn Hp Hle.
  destruct (Z.ltb_spec pos 0); [lia | ].
  rewrite length_firstn, length_skipn. lia.
Qed.

Lemma raw_data_header sz :
  0 <= sz < 2 ^ 24 -> sqsh_data_header (Z.lor (2 ^ 24) sz) = (false, sz).
Proof.
  intros Hsz.
  assert (Hh : 0 <= Z.lor (2 ^ 24) sz < 2 ^ 32).
  { assert (E : Z.land (2 ^ 24) sz = 0) by (Z.bitblast; bits_finish).
    pose proof (Z.add_lor_land (2 ^ 24) sz) as Hadd.
    rewrite E in Hadd. lia. }
  unfold sqsh_data_header. rewrite data_size_mask by exact Hh.
  unfold SQUASHFS_COMPRESSED_BIT_BLOCK. rewrite flag_clear_iff by lia.
  f_equal.
  - rewrite Z.lor_spec, Z.pow2_bits_eqb, Z.eqb_refl by lia. reflexivity.
  - Z.bitblast; bits_finish.
Qed.



(** ** What the variant decoders store *)

Ltac facts_branch E :=
  let H := fresh "H" in
  let nx := fresh "nx" in
  let raw := fresh "raw" in
  let l1 := fresh "l1" in
  let Hg := fresh "Hg" in
  let Hx := fresh "Hx" in
  cbn [orb]; intros H;
  apply bind_Ret_inv in H; destruct H as ([nx raw] & l1 & Hg & H);
  unfold ret in H; apply pair_equal_spec in H; destruct H as [H _];
  apply Ret_inj in H; subst;
  cbn [nlink xattr size xtra];
  split;
  [ repeat split; try reflexivity; repeat eexists
  | intros Hx; rewrite E;
    match goal with
    | |- context [sqsh_inode_type ?c] =>
        let v := eval vm_compute in (sqsh_inode_type c) in
        change (sqsh_inode_type c) with v
    end;
    cbn [xtra_matches_kind]; try exact Hx; repeat eexists ].

Ltac facts_on c :=
  match goal with
  | |- context [?t =? c] =>
      let E := fresh "E" in
      destruct (Z.eqb_spec t c) as [E | ?]; [facts_branch E | cbn [orb]]
  end.

Lemma switch_facts ump i l i' l' :
  sqsh_get_inode_switch ump i l = (Ret i', l') ->
  variant_facts (inode_type (base i)) i i'
  /\ (xtra i = XtraZero ->
      xtra_matches_kind (sqsh_inode_type (inode_type (base i))) (xtra i')).
Proof.
  unfold sqsh_get_inode_switch, variant_facts,
    sqsh_init_reg_inode, sqsh_init_lreg_inode, sqsh_init_dir_inode,
    sqsh_init_ldir_inode, sqsh_init_symlink_inode, sqsh_init_dev_inode,
    sqsh_init_ldev_inode, sqsh_init_ipc_inode, sqsh_init_lipc_inode.
  cbv zeta.
  facts_on SQUASHFS_REG_TYPE.
  facts_on SQUASHFS_LREG_TYPE.
  facts_on SQUASHFS_DIR_TYPE.
  facts_on SQUASHFS_LDIR_TYPE.
  facts_on SQUASHFS_SYMLINK_TYPE.
  facts_on SQUASHFS_LSYMLINK_TYPE.
  facts_on SQUASHFS_BLKDEV_TYPE.
  facts_on SQUASHFS_CHRDEV_TYPE.
  facts_on SQUASHFS_LBLKDEV_TYPE.
  facts_on SQUASHFS_LCHRDEV_TYPE.
  facts_on SQUASHFS_SOCKET_TYPE.
  facts_on SQUASHFS_FIFO_TYPE.
  facts_on SQUASHFS_LSOCKET_TYPE.
  facts_on SQUASHFS_LFIFO_TYPE.
  unfold fail. intros H; discriminate H.
Qed.

(** The inode a successful lookup returns, related to the one built from the
    base header. *)
Lemma get_inode_facts ump id l inode l' :
  sqsh_get_inode ump id l = (Ret inode, l') ->
  variant_facts (inode_type (base inode))
    {| base := base inode; nlink := 0; xattr := SQUASHFS_INVALID_XATTR;
       size := 0; type := type inode;
       next := sqsh_metadata_run_inode id (sb_inode_table_start (sb ump));
       xtra := XtraZero |}
    inode
  /\ xtra_matches_kind (type inode) (xtra inode)
  /\ type inode = sqsh_inode_type (inode_type (base inode)).
Proof.
  intros H. unfold sqsh_get_inode in H.
  apply bind_Ret_inv in H. destruct H as ([cur1 raw] & l1 & Hbase & H).
  apply bind_Ret_inv in H. destruct H as (i & l2 & Hsw & H).
  destruct (sqsh_verify_inode ump i) eqn:Hv; [ | discriminate H].
  unfold ret in H. apply pair_equal_spec in H. destruct H as [H _].
  apply Ret_inj in H. subst i.
  pose proof (switch_Ret_inv _ _ _ _ _ Hsw) as (_ & _ & Hb & Ht & _).
  pose proof (switch_facts _ _ _ _ _ Hsw) as (Hf & Hk).
  unfold inode_after_base in Hb, Ht, Hf, Hk.
  cbv zeta in Hb, Ht, Hf, Hk.
  cbn [base type xtra] in Hb, Ht, Hf, Hk.
  rewrite Ht, Hb.
  split; [exact Hf | split; [apply Hk; reflexivity | reflexivity]].
Qed.

Ltac reduce_facts HF :=
  unfold variant_facts in HF;
  repeat match type of HF with
         | context [?a =? ?b] =>
             let v := eval vm_compute in (a =? b) in
             change (a =? b) with v in HF
         end;
  cbn [orb] in HF.

Lemma dev_numbers_bounded rdev :
  0 <= sqsh_dev_major rdev < 2 ^ 12 /\ 0 <= sqsh_dev_minor rdev < 2 ^ 20.
Proof.
  unfold sqsh_dev_major, sqsh_dev_minor. split.
  - change 0xfff with (Z.ones 12). rewrite Z.land_ones by lia.
    pose proof (Z.mod_pos_bound (Z.shiftr rdev 8) (2 ^ 12) ltac:(lia)).
    rewrite s32_small; lia.
  - set (v := Z.lor (Z.land rdev 0xff) (Z.land (Z.shiftr rdev 12) 0xfff00)).
    assert (E : v = Z.land v (Z.ones 20)).
    { subst v. change 0xff with (Z.ones 8).
      change 0xfff00 with (Z.shiftl (Z.ones 12) 8).
      Z.bitblast; bits_finish. }
    rewrite Z.land_ones in E by lia.
    pose proof (Z.mod_pos_bound v (2 ^ 20) ltac:(lia)).
    rewrite s32_small; lia.
Qed.

(** ** The resolver, beyond the claims *)

(** X6.  When the base header was pulled and carries a type code that
    [sqsh_inode_type] classifies as [VBAD], [sqsh_get_inode] returns the
    error after the reads of that pull alone: no variant record is read. *)
Theorem X6_unknown_type_fails_before_variant (ump : sqsh_mount) (id : Z)
    (l : io_log) (cur1 : sqsh_block_run) (raw : list byte) (l1 : io_log) :
  sqsh_metadata_get ump
    (sqsh_metadata_run_inode id (sb_inode_table_start (sb ump)))
    true sizeof_base_inode l = (Ret (cur1, raw), l1) ->
  sqsh_inode_type (inode_type (swapendian_base_inode raw)) = VBAD ->
  sqsh_get_inode ump id l = (Err, l1).
Proof.
  intros Hbase Hbad. unfold sqsh_get_inode.
  rewrite (bind_Ret _ _ _ _ _ Hbase).
  assert (Hsw : sqsh_get_inode_switch ump
                  (inode_after_base
                     (sqsh_metadata_run_inode id (sb_inode_table_start (sb ump)))
                     raw) l1 = (Err, l1)).
  { unfold sqsh_get_inode_switch, inode_after_base. cbv zeta. cbn [base].
    revert Hbad. generalize (inode_type (swapendian_base_inode raw)) as t.
    intros t Hbad.
    repeat match goal with
           | |- context [t =? ?c] =>
               destruct (Z.eqb_spec t c) as [E | ?];
               [rewrite E in Hbad; vm_compute in Hbad; discriminate Hbad
               | cbn [orb]]
           end.
    reflexivity. }
  unfold bind at 1. rewrite Hsw. reflexivity.
Qed.

Lemma X6_unknown_type_fails_before_variant_witness :
  exists cur1 raw l1,
    sqsh_metadata_get MoreSamples.bad_type_mount
      (sqsh_metadata_run_inode 0
         (sb_inode_table_start (sb MoreSamples.bad_type_mount)))
      true sizeof_base_inode [] = (Ret (cur1, raw), l1)
    /\ sqsh_inode_type (inode_type (swapendian_base_inode raw)) = VBAD
    /\ l1 = [(0, 2); (2, 40)]
    /\ sqsh_get_inode MoreSamples.bad_type_mount 0 [] = (Err, l1).
Proof.
  eexists. eexists. eexists.
  split; [vm_compute; reflexivity | ].
  split; [vm_compute; reflexivity | ].
  split; [reflexivity | ].
  eapply (X6_unknown_type_fails_before_variant MoreSamples.bad_type_mount 0 []).
  - vm_compute. reflexivity.
  - vm_compute. reflexivity.
Defined.

(** X7.  In a returned inode, a compact regular file has [nlink = 1], and
    every variant whose decoder reads no xattr field (the compact ones, and
    the extended symlink, which shares the compact symlink decoder) has
    [xattr] equal to the sentinel 0xFFFFFFFF. *)
Theorem X7_compact_defaults (ump : sqsh_mount) (id : Z) (l : io_log)
    (inode : sqsh_inode) (l' : io_log) :
  sqsh_get_inode ump id l = (Ret inode, l') ->
  (inode_type (base inode) = SQUASHFS_REG_TYPE -> nlink inode = 1)
  /\ (In (inode_type (base inode))
         [SQUASHFS_REG_TYPE; SQUASHFS_DIR_TYPE; SQUASHFS_SYMLINK_TYPE;
          SQUASHFS_LSYMLINK_TYPE; SQUASHFS_BLKDEV_TYPE; SQUASHFS_CHRDEV_TYPE;
          SQUASHFS_FIFO_TYPE; SQUASHFS_SOCKET_TYPE] ->
      xattr inode = SQUASHFS_INVALID_XATTR).
Proof.
  intros H. apply get_inode_facts in H. destruct H as (HF & _ & _).
  split.
  - intros E. rewrite E in HF. reduce_facts HF. tauto.
  - cbn [In]. intros Hin.
    repeat match goal with
           | Hor : _ \/ _ |- _ => destruct Hor as [E | Hor]
           end; try contradiction;
      rewrite <- E in HF; reduce_facts HF; cbn [xattr] in HF; tauto.
Qed.

Lemma X7_compact_defaults_witness :
  exists inode l',
    sqsh_get_inode Samples.reg_mount 0 [] = (Ret inode, l')
    /\ (inode_type (base inode) = SQUASHFS_REG_TYPE -> nlink inode = 1)
    /\ (In (inode_type (base inode))
           [SQUASHFS_REG_TYPE; SQUASHFS_DIR_TYPE; SQUASHFS_SYMLINK_TYPE;
            SQUASHFS_LSYMLINK_TYPE; SQUASHFS_BLKDEV_TYPE; SQUASHFS_CHRDEV_TYPE;
            SQUASHFS_FIFO_TYPE; SQUASHFS_SOCKET_TYPE] ->
        xattr inode = SQUASHFS_INVALID_XATTR).
Proof.
  eexists. eexists. split; [vm_compute; reflexivity | ].
  eapply (X7_compact_defaults Samples.reg_mount 0 []).
  vm_compute. reflexivity.
Defined.

(** X8.  A returned device inode (block or character, compact or extended)
    has size 0, is tagged [VBLK] or [VCHR], and carries a major number below
    2^12 and a minor number below 2^20, whatever the 32 bits of [rdev] on
    disk are. *)
Theorem X8_device_numbers_bounded (ump : sqsh_mount) (id : Z) (l : io_log)
    (inode : sqsh_inode) (l' : io_log) :
  sqsh_get_inode ump id l = (Ret inode, l') ->
  In (inode_type (base inode))
     [SQUASHFS_BLKDEV_TYPE; SQUASHFS_CHRDEV_TYPE; SQUASHFS_LBLKDEV_TYPE;
      SQUASHFS_LCHRDEV_TYPE] ->
  size inode = 0
  /\ (type inode = VBLK \/ type inode = VCHR)
  /\ 0 <= xtra_dev_major (xtra inode) < 2 ^ 12
  /\ 0 <= xtra_dev_minor (xtra inode) < 2 ^ 20.
Proof.
  intros H Hin. apply get_inode_facts in H. destruct H as (HF & _ & Ht).
  cbn [In] in Hin.
  repeat match goal with
         | Hor : _ \/ _ |- _ => destruct Hor as [E | Hor]
         end; try contradiction;
    rewrite <- E in HF, Ht; reduce_facts HF;
    repeat match goal with
           | Hc : _ /\ _ |- _ => destruct Hc
           | Hc : exists _, _ |- _ => destruct Hc
           end;
    match goal with
    | Hx : xtra inode = XtraDev (sqsh_dev_major ?r) _ |- _ =>
        rewrite Hx; cbn [xtra_dev_major xtra_dev_minor];
        pose proof (dev_numbers_bounded r)
    end;
    (split; [assumption | split; [ | tauto]]);
    rewrite Ht; vm_compute; tauto.
Qed.

Lemma X8_device_numbers_bounded_witness :
  exists inode l',
    sqsh_get_inode MoreSamples.blkdev_mount 0 [] = (Ret inode, l')
    /\ In (inode_type (base inode))
          [SQUASHFS_BLKDEV_TYPE; SQUASHFS_CHRDEV_TYPE; SQUASHFS_LBLKDEV_TYPE;
           SQUASHFS_LCHRDEV_TYPE]
    /\ xtra inode = XtraDev 8 3
    /\ size inode = 0
    /\ (type inode = VBLK \/ type inode = VCHR)
    /\ 0 <= xtra_dev_major (xtra inode) < 2 ^ 12
    /\ 0 <= xtra_dev_minor (xtra inode) < 2 ^ 20.
Proof.
  eexists. eexists. split; [vm_compute; reflexivity | ].
  split; [left; reflexivity | ].
  split; [reflexivity | ].
  eapply (X8_device_numbers_bounded MoreSamples.blkdev_mount 0 []).
  - vm_compute. reflexivity.
  - left. reflexivity.
Defined.

(** X9.  In a returned inode the union member that was stored is the one
    the node kind selects: the [dir] member for [VDIR], the [reg] member for
    [VREG], the [dev] member for [VBLK] and [VCHR], and the zeroed union for
    symlinks, fifos and sockets. *)
Theorem X9_union_keyed_by_kind (ump : sqsh_mount) (id : Z) (l : io_log)
    (inode : sqsh_inode) (l' : io_log) :
  sqsh_get_inode ump id l = (Ret inode, l') ->
  xtra_matches_kind (type inode) (xtra inode).
Proof.
  intros H. apply get_inode_facts in H. tauto.
Qed.

Lemma X9_union_keyed_by_kind_witness :
  exists inode l',
    sqsh_get_inode Samples.dir_root_mount 0 [] = (Ret inode, l')
    /\ type inode = VDIR
    /\ xtra_matches_kind (type inode) (xtra inode).
Proof.
  eexists. eexists. split; [vm_compute; reflexivity | ].
  split; [reflexivity | ].
  eapply (X9_union_keyed_by_kind Samples.dir_root_mount 0 []).
  vm_compute. reflexivity.
Defined.

Lemma metadata_read_at_log ump pos dsz blk la :
  fst (sqsh_metadata_read ump pos []) = Ret (dsz, blk) ->
  sqsh_metadata_read ump pos la
  = (Ret (dsz, blk),
     la ++ [(pos, 2); (s64 (pos + 2), on_disk_size ump pos)]).
Proof.
  intros H.
  pose proof (metadata_read_any_log ump pos la []) as E. rewrite H in E.
  destruct (sqsh_metadata_read ump pos la) as [r lb] eqn:Hr. cbn [fst] in E.
  subst r. apply metadata_read_inv in Hr as Hinv.
  destruct Hinv as (_ & _ & _ & _ & ->). reflexivity.
Qed.

(** X10.  For every id whose record lies strictly inside the block its
    cursor names, a successful lookup returns [inode.next] equal to the
    seeded cursor moved forward by the size of the whole record, and it
    reads that block from the backing store twice, header and payload each
    time: once for the base header and once more for the record. *)
Theorem X10_lookup_within_block (ump : sqsh_mount) (id : Z) (l : io_log)
    (inode : sqsh_inode) (l' : io_log) (dsz : Z) (blk : sqsh_block) :
  sqsh_get_inode ump id l = (Ret inode, l') ->
  let seed := sqsh_metadata_run_inode id (sb_inode_table_start (sb ump)) in
  let R := inode_record_size (inode_type (base inode)) in
  let reads := [(block seed, 2);
                (s64 (block seed + 2), on_disk_size ump (block seed))] in
  fst (sqsh_metadata_read ump (block seed) []) = Ret (dsz, blk) ->
  offset seed + R < b_size blk ->
  next inode = {| block := block seed; offset := offset seed + R |}
  /\ l' = l ++ reads ++ reads.
Proof.
  intros H seed R reads Hblk Hin.
  apply get_inode_Ret_inv in H. cbv zeta in H. fold seed in H.
  destruct H as (cur1 & raw & l1 & raw' & Hbase & _ & _ & Hrec & _ & _).
  fold R in Hrec.
  pose proof (inode_record_size_min (inode_type (base inode))) as HR.
  fold R in HR.
  assert (Hoff : 0 <= offset seed).
  { subst seed. unfold sqsh_metadata_run_inode; cbn [offset].
    apply Z.land_nonneg. right. lia. }
  pose proof (metadata_get_within_block ump seed true 16 l dsz blk _
                (metadata_read_at_log ump (block seed) dsz blk l Hblk)
                Hoff ltac:(lia) ltac:(lia)) as G1.
  change sizeof_base_inode with 16 in Hbase.
  rewrite G1 in Hbase. apply pair_equal_spec in Hbase.
  destruct Hbase as [_ Hl1].
  pose proof (metadata_get_within_block ump seed true R l1 dsz blk _
                (metadata_read_at_log ump (block seed) dsz blk l1 Hblk)
                Hoff ltac:(lia) Hin) as G2.
  rewrite G2 in Hrec. apply pair_equal_spec in Hrec.
  destruct Hrec as [Hret Hl'].
  apply Ret_inj in Hret. apply pair_equal_spec in Hret.
  destruct Hret as [Hnext _].
  split; [symmetry; exact Hnext | ].
  rewrite <- Hl', <- Hl1. subst reads. rewrite <- app_assoc. reflexivity.
Qed.

(** The directory stored at offset 32 of the block, after a regular file. *)
Lemma X10_lookup_within_block_witness :
  exists inode l' dsz blk,
    let ump := MoreSamples.two_inode_mount in
    let seed := sqsh_metadata_run_inode 32 (sb_inode_table_start (sb ump)) in
    let reads := [(block seed, 2);
                  (s64 (block seed + 2), on_disk_size ump (block seed))] in
    sqsh_get_inode ump 32 [] = (Ret inode, l')
    /\ fst (sqsh_metadata_read ump (block seed) []) = Ret (dsz, blk)
    /\ offset seed + inode_record_size (inode_type (base inode)) < b_size blk
    /\ inode_number (base inode) = 2
    /\ next inode
       = {| block := block seed;
            offset := offset seed
                      + inode_record_size (inode_type (base inode)) |}
    /\ l' = [] ++ reads ++ reads.
Proof.
  eexists. eexists. eexists. eexists. intros ump seed reads.
  split; [vm_compute; reflexivity | ].
  split; [vm_compute; reflexivity | ].
  split; [vm_compute; reflexivity | ].
  split; [reflexivity | ].
  eapply (X10_lookup_within_block ump 32 []).
  - vm_compute. reflexivity.
  - vm_compute. reflexivity.
  - vm_compute. reflexivity.
Defined.

(** X11.  A returned inode with the compact directory type code is tagged
    [VDIR], has an index count of zero, and has its parent_inode in
    [1, inodes + 1]. *)
Theorem X11_compact_dir_checked (ump : sqsh_mount) (id : Z) (l : io_log)
    (inode : sqsh_inode) (l' : io_log) :
  0 <= sb_inodes (sb ump) ->
  sqsh_get_inode ump id l = (Ret inode, l') ->
  inode_type (base inode) = SQUASHFS_DIR_TYPE ->
  type inode = VDIR
  /\ (exists sb off p, xtra inode = XtraDir sb off 0 p)
  /\ 1 <= xtra_dir_parent_inode (xtra inode) <= sb_inodes (sb ump) + 1.
Proof.
  intros Hn H Hdir.
  pose proof (get_inode_facts _ _ _ _ _ H) as (HF & _ & Ht).
  apply get_inode_Ret_inv in H.
  destruct H as (cur1 & raw & l1 & raw' & _ & _ & _ & _ & _ & Hv).
  apply verify_OK_inv in Hv. destruct Hv as (_ & _ & Hpar).
  specialize (Hpar Hdir).
  rewrite Hdir in HF, Ht. reduce_facts HF. destruct HF as (_ & Hx).
  assert (u32 (sb_inodes (sb ump) + 1) <= sb_inodes (sb ump) + 1)
    by (unfold u32; apply Z.mod_le; lia).
  split; [exact Ht | split; [exact Hx | lia]].
Qed.

Lemma X11_compact_dir_checked_witness :
  exists inode l',
    0 <= sb_inodes (sb Samples.dir_root_mount)
    /\ sqsh_get_inode Samples.dir_root_mount 0 [] = (Ret inode, l')
    /\ inode_type (base inode) = SQUASHFS_DIR_TYPE
    /\ type inode = VDIR
    /\ (exists sb off p, xtra inode = XtraDir sb off 0 p)
    /\ 1 <= xtra_dir_parent_inode (xtra inode)
       <= sb_inodes (sb Samples.dir_root_mount) + 1.
Proof.
  eexists. eexists. split; [vm_compute; discriminate | ].
  split; [vm_compute; reflexivity | ].
  split; [reflexivity | ].
  eapply (X11_compact_dir_checked Samples.dir_root_mount 0 []).
  - vm_compute. discriminate.
  - vm_compute. reflexivity.
  - reflexivity.
Defined.

(** ** The cursor, beyond the claims *)

(** X12.  A pull of at least one byte fails when the block the cursor names
    does not lie inside the image, header and announced payload included:
    a cursor before the start, at or past the end, or at a truncated
    block. *)
Theorem X12_pull_outside_image_fails (ump : sqsh_mount)
    (cur : sqsh_block_run) (buf : bool) (size : Z) (l : io_log) :
  image_addressable ump ->
  0 < size ->
  ~ (0 <= block cur
     /\ block cur + 2 + on_disk_size ump (block cur)
        <= Z.of_nat (length (image ump))) ->
  fst (sqsh_metadata_get ump cur buf size l) = Err.
Proof.
  intros Himg Hsz Hout. unfold sqsh_metadata_get. cbn [metadata_get_loop].
  change (g_size (get_init cur size)) with size.
  rewrite (proj2 (Z.gtb_lt _ _) Hsz).
  unfold metadata_get_body.
  change (g_pos (get_init cur size)) with (block cur).
  pose proof (metadata_read_not_fuel ump (block cur) l) as Hnf.
  unfold bind.
  destruct (sqsh_metadata_read ump (block cur) l) as [[[dsz blk] | | ] l1]
    eqn:Hr; cbn [fst] in *; try congruence.
  exfalso. apply Hout.
  pose proof (metadata_read_in_image _ _ _ _ _ _ Himg Hr) as (Hp & _ & Hle).
  pose proof (metadata_read_inv _ _ _ _ _ _ Hr) as (_ & Hd & _).
  lia.
Qed.

Lemma X12_pull_outside_image_fails_witness :
  let ump := MoreSamples.truncated_mount in
  let cur := {| block := 18; offset := 0 |} in
  Z.of_nat (length (image ump)) = 43
  /\ on_disk_size ump 18 = 24
  /\ fst (sqsh_metadata_get ump cur true 1 []) = Err.
Proof.
  intros ump cur.
  split; [reflexivity | split; [reflexivity | ]].
  apply (X12_pull_outside_image_fails ump cur true 1 []).
  - unfold image_addressable. vm_compute. reflexivity.
  - lia.
  - vm_compute. intros [_ H]. apply H. reflexivity.
Defined.

(** X13.  The loop of [sqsh_metadata_get] terminates on every image: each
    iteration that does not fail moves [pos] forward by at least three
    bytes inside the image, so the call returns [SQFS_OK] or [SQFS_ERR], and
    any iteration budget above the image length gives the same outcome. *)
Theorem X13_pull_terminates (ump : sqsh_mount) (cur : sqsh_block_run)
    (buf : bool) (size : Z) (l : io_log) :
  image_addressable ump ->
  fst (sqsh_metadata_get ump cur buf size l) <> Fuel
  /\ forall fuel, (length (image ump) < fuel)%nat ->
       metadata_get_loop ump buf fuel (get_init cur size) l
       = metadata_get_loop ump buf (S (length (image ump)))
           (get_init cur size) l.
Proof.
  intros Himg. split.
  - apply sqsh_metadata_get_total. exact Himg.
  - intros fuel Hfuel.
    apply (metadata_get_loop_fuel_irrelevant ump buf Himg).
    + unfold enough_fuel, get_init; cbn [g_pos]. split; lia.
    + apply init_enough.
Qed.

Lemma X13_pull_terminates_witness :
  let ump := Samples.two_block_mount in
  let cur := {| block := 0; offset := 0 |} in
  fst (sqsh_metadata_get ump cur true 1000 []) <> Fuel
  /\ forall fuel, (length (image ump) < fuel)%nat ->
       metadata_get_loop ump true fuel (get_init cur 1000) []
       = metadata_get_loop ump true (S (length (image ump)))
           (get_init cur 1000) [].
Proof.
  intros ump cur.
  apply (X13_pull_terminates ump cur true 1000 []).
  unfold image_addressable. vm_compute. reflexivity.
Defined.

(** X14.  [sqsh_metadata_get] does not compare the cursor's offset with the
    size of the block.  For a pull with a NULL destination (nothing is
    copied) from a cursor whose offset lies beyond its block, [take] wraps
    around in [size_t] and is clamped to the request: the call returns
    [SQFS_OK] after reading that one block, and the cursor keeps its block
    and has the request added to its offset. *)
Theorem X14_offset_past_block_not_rejected (ump : sqsh_mount)
    (cur : sqsh_block_run) (n : Z) (l : io_log) (dsz : Z)
    (blk : sqsh_block) (l1 : io_log) :
  sqsh_metadata_read ump (block cur) l = (Ret (dsz, blk), l1) ->
  b_size blk < offset cur -> 0 < n -> offset cur + n < 2 ^ 64 ->
  sqsh_metadata_get ump cur false n l
  = (Ret ({| block := block cur; offset := offset cur + n |}, []), l1).
Proof.
  intros Hr Hpast Hn Hfit.
  pose proof (metadata_read_inv _ _ _ _ _ _ Hr) as (_ & _ & _ & Hb & _).
  assert (Htake : get_take blk (get_init cur n) = n).
  { unfold get_take, get_init; cbn [g_cur g_size].
    assert (E : u64 (b_size blk - offset cur)
                = 2 ^ 64 + (b_size blk - offset cur)).
    { unfold u64.
      rewrite <- (Z.mod_add _ 1) by lia.
      rewrite Z.mod_small; lia. }
    rewrite E. rewrite (proj2 (Z.gtb_lt _ _)) by lia. reflexivity. }
  assert (Hbody : metadata_get_body ump false (get_init cur n) l
                  = (Ret (get_advance false (get_init cur n) dsz blk), l1)).
  { unfold metadata_get_body.
    change (g_pos (get_init cur n)) with (block cur).
    rewrite (bind_Ret _ _ _ _ _ Hr). reflexivity. }
  assert (Hloop : metadata_get_loop ump false (S (length (image ump)))
                    (get_init cur n) l
                  = (Ret (get_advance false (get_init cur n) dsz blk), l1)).
  { cbn [metadata_get_loop].
    change (g_size (get_init cur n)) with n.
    rewrite (proj2 (Z.gtb_lt _ _) Hn).
    rewrite (bind_Ret _ _ _ _ _ Hbody).
    apply loop_done.
    unfold get_advance; cbn [g_size]. rewrite Htake.
    change (g_size (get_init cur n)) with n.
    rewrite Z.sub_diag. reflexivity. }
  unfold sqsh_metadata_get. rewrite (bind_Ret _ _ _ _ _ Hloop).
  unfold ret, get_advance. rewrite Htake.
  cbn [g_cur g_out get_init]. rewrite (u64_small (offset cur + n)) by lia.
  destruct (Z.eqb_spec (offset cur + n) (b_size blk)) as [E | _]; [lia | ].
  reflexivity.
Qed.

Lemma X14_offset_past_block_not_rejected_witness :
  let ump := Samples.two_block_mount in
  let cur := {| block := 0; offset := 100 |} in
  exists dsz blk,
    fst (sqsh_metadata_read ump 0 []) = Ret (dsz, blk)
    /\ b_size blk = 16
    /\ sqsh_metadata_get ump cur false 8 []
       = (Ret ({| block := block cur; offset := offset cur + 8 |}, []),
          [(0, 2); (2, 16)]).
Proof.
  intros ump cur. eexists. eexists.
  split; [vm_compute; reflexivity | ].
  split; [reflexivity | ].
  eapply (X14_offset_past_block_not_rejected ump cur 8 []).
  - vm_compute. reflexivity.
  - vm_compute. reflexivity.
  - lia.
  - vm_compute. reflexivity.
Defined.

(** *** One iteration on a cursor that lies in its block *)

Lemma advance_out buf st dsz blk :
  g_out (get_advance buf st dsz blk)
  = g_out st ++ copied buf blk (offset (g_cur st)) (get_take blk st).
Proof.
  unfold get_advance, copied; cbn [g_out].
  destruct buf; [reflexivity | rewrite app_nil_r; reflexivity].
Qed.

(** The request ends inside the block. *)
Lemma advance_inside buf st dsz blk :
  0 <= offset (g_cur st) -> b_size blk < 2 ^ 64 -> 0 <= g_size st ->
  g_size st < b_size blk - offset (g_cur st) ->
  get_advance buf st dsz blk
  = {| g_pos := s64 (g_pos st + dsz);
       g_cur := {| block := block (g_cur st);
                   offset := offset (g_cur st) + g_size st |};
       g_size := 0;
       g_out := g_out st ++ copied buf blk (offset (g_cur st)) (g_size st) |}.
Proof.
  intros Ho Hb Hs Hlt.
  assert (Htake : get_take blk st = g_size st).
  { unfold get_take. rewrite u64_small by lia.
    rewrite (proj2 (Z.gtb_lt _ _)) by lia. reflexivity. }
  pose proof (advance_out buf st dsz blk) as Hout. rewrite Htake in Hout.
  rewrite <- Hout. unfold get_advance at 1. rewrite Htake.
  rewrite Z.sub_diag. change (u64 0) with 0.
  rewrite (u64_small (offset (g_cur st) + g_size st)) by lia.
  destruct (Z.eqb_spec (offset (g_cur st) + g_size st) (b_size blk));
    [lia | ].
  unfold get_advance; cbn [g_out]. rewrite Htake. reflexivity.
Qed.

(** The request reaches the end of the block. *)
Lemma advance_to_end buf st dsz blk :
  0 <= offset (g_cur st) <= b_size blk -> b_size blk < 2 ^ 64 ->
  g_size st < 2 ^ 64 ->
  b_size blk - offset (g_cur st) <= g_size st ->
  get_advance buf st dsz blk
  = {| g_pos := s64 (g_pos st + dsz);
       g_cur := {| block := s64 (g_pos st + dsz); offset := 0 |};
       g_size := g_size st - (b_size blk - offset (g_cur st));
       g_out := g_out st
                ++ copied buf blk (offset (g_cur st))
                     (b_size blk - offset (g_cur st)) |}.
Proof.
  intros Ho Hb Hs Hle.
  assert (Htake : get_take blk st = b_size blk - offset (g_cur st)).
  { unfold get_take. rewrite u64_small by lia.
    destruct (Z.gtb_spec (b_size blk - offset (g_cur st)) (g_size st));
      [lia | reflexivity]. }
  pose proof (advance_out buf st dsz blk) as Hout. rewrite Htake in Hout.
  rewrite <- Hout. unfold get_advance at 1. rewrite Htake.
  rewrite (u64_small (g_size st - _)) by lia.
  replace (offset (g_cur st) + (b_size blk - offset (g_cur st)))
    with (b_size blk) by ring.
  rewrite (u64_small (b_size blk)) by lia. rewrite Z.eqb_refl.
  unfold get_advance; cbn [g_out]. rewrite Htake. reflexivity.
Qed.

Lemma honest_block_length ump pos l dsz blk l' :
  decompressor_honest ump ->
  sqsh_metadata_read ump pos l = (Ret (dsz, blk), l') ->
  Z.of_nat (length (b_data blk)) = b_size blk.
Proof.
  intros Hh H. unfold sqsh_metadata_read in H.
  apply bind_Ret_inv in H. destruct H as (raw & l1 & _ & H).
  destruct (negb (Z.of_nat (length raw) =? 2)); [discriminate H | ].
  destruct (sqsh_metadata_header (le_combine raw)) as [c sz].
  apply bind_Ret_inv in H. destruct H as (b & l2 & Hb & H).
  unfold ret in H. apply pair_equal_spec in H. destruct H as [H _].
  apply Ret_inj in H. apply pair_equal_spec in H. destruct H as [_ <-].
  unfold sqsh_block_read in Hb.
  apply bind_Ret_inv in Hb. destruct Hb as (data & l3 & _ & Hb).
  destruct (Z.eqb_spec (Z.of_nat (length data)) sz) as [E | E];
    cbn [negb] in Hb; [ | discriminate Hb].
  destruct c.
  - destruct (decompressor ump data sz SQUASHFS_METADATA_SIZE)
      as [[ | ] [d n]] eqn:Hd; [ | discriminate Hb].
    unfold ret in Hb. apply pair_equal_spec in Hb. destruct Hb as [Hb _].
    apply Ret_inj in Hb. subst b. cbn [b_data b_size].
    destruct (Hh _ _ _ _ _ Hd) as [Hn Hlen].
    rewrite u64_small by exact Hn. exact Hlen.
  - unfold ret in Hb. apply pair_equal_spec in Hb. destruct Hb as [Hb _].
    apply Ret_inj in Hb. subst b. cbn [b_data b_size]. exact E.
Qed.

Lemma copied_length buf blk off take :
  Z.of_nat (length (b_data blk)) = b_size blk ->
  0 <= off -> 0 <= take -> off + take <= b_size blk ->
  Z.of_nat (length (copied buf blk off take)) = if buf then take else 0.
Proof.
  intros Hlen Ho Ht Hle. unfold copied. destruct buf; [ | reflexivity].
  rewrite length_firstn, length_skipn. lia.
Qed.

Lemma loop_delivers ump buf :
  decompressor_honest ump ->
  forall fuel st l st' l',
    0 <= g_size st < 2 ^ 64 ->
    loop_ready ump st ->
    metadata_get_loop ump buf fuel st l = (Ret st', l') ->
    Z.of_nat (length (g_out st'))
    = Z.of_nat (length (g_out st)) + (if buf then g_size st else 0).
Proof.
  intros Hh. induction fuel as [ | fuel IH]; intros st l st' l' Hs Hready H;
    cbn [metadata_get_loop] in H;
    destruct (Z.gtb_spec (g_size st) 0) as [Hpos | Hzero].
  - discriminate H.
  - unfold ret in H. apply pair_equal_spec in H. destruct H as [H _].
    apply Ret_inj in H. subst st'.
    replace (g_size st) with 0 by lia. destruct buf; lia.
  - apply bind_Ret_inv in H. destruct H as (st1 & l1 & Hbody & Hloop).
    apply body_Ret_inv in Hbody. destruct Hbody as (dsz & blk & Hr & ->).
    destruct (Hready Hpos) as (Hp & Ho & Hin).
    specialize (Hin _ _ _ _ Hr).
    pose proof (metadata_read_inv _ _ _ _ _ _ Hr) as (_ & _ & _ & Hb & _).
    pose proof (honest_block_length _ _ _ _ _ _ Hh Hr) as Hlen.
    destruct (Z_lt_ge_dec (g_size st) (b_size blk - offset (g_cur st)))
      as [Hlt | Hge].
    + rewrite (advance_inside buf st dsz blk) in Hloop by lia.
      apply IH in Hloop; cbn [g_size g_out] in *; [ | lia | ].
      * rewrite Hloop, length_app, Nat2Z.inj_add.
        rewrite (copied_length buf blk) by lia.
        destruct buf; lia.
      * intros Hc; cbn [g_size] in Hc; lia.
    + rewrite (advance_to_end buf st dsz blk) in Hloop by lia.
      apply IH in Hloop; cbn [g_size g_out] in *; [ | lia | ].
      * rewrite Hloop, length_app, Nat2Z.inj_add.
        rewrite (copied_length buf blk) by lia.
        destruct buf; lia.
      * intros Hc; cbn [g_pos g_cur block offset].
        split; [reflexivity | split; [lia | ]].
        intros dsz' blk' la lb Hr'.
        apply metadata_read_inv in Hr'. lia.
  - unfold ret in H. apply pair_equal_spec in H. destruct H as [H _].
    apply Ret_inj in H. subst st'.
    replace (g_size st) with 0 by lia. destruct buf; lia.
Qed.

Lemma init_ready ump cur size :
  cursor_in_block ump cur -> loop_ready ump (get_init cur size).
Proof.
  intros [Ho Hin] _. unfold get_init; cbn [g_pos g_cur].
  split; [reflexivity | split; [exact Ho | ]].
  intros dsz blk la lb Hr. apply (Hin dsz blk).
  rewrite <- (metadata_read_any_log ump (block cur) la []), Hr. reflexivity.
Qed.

(** X15.  With a decompressor that keeps its contract and a cursor that lies
    in its block, a successful pull stores exactly [size] bytes through a
    non-NULL [buf], however many blocks it crosses, and none through a NULL
    one. *)
Theorem X15_pull_delivers_size (ump : sqsh_mount) (cur : sqsh_block_run)
    (buf : bool) (size : Z) (l : io_log) (cur' : sqsh_block_run)
    (out : list byte) (l' : io_log) :
  decompressor_honest ump ->
  cursor_in_block ump cur ->
  0 <= size < 2 ^ 64 ->
  sqsh_metadata_get ump cur buf size l = (Ret (cur', out), l') ->
  Z.of_nat (length out) = if buf then size else 0.
Proof.
  intros Hh Hin Hs H. unfold sqsh_metadata_get in H.
  apply bind_Ret_inv in H. destruct H as (st & l1 & Hloop & H).
  unfold ret in H. apply pair_equal_spec in H. destruct H as [H _].
  apply Ret_inj in H. apply pair_equal_spec in H. destruct H as [_ <-].
  apply (loop_delivers ump buf Hh) in Hloop.
  - exact Hloop.
  - exact Hs.
  - apply init_ready. exact Hin.
Qed.

Lemma no_decompressor_honest ump :
  decompressor ump = Samples.no_decompressor -> decompressor_honest ump.
Proof.
  intros E src n cap d m H. rewrite E in H. discriminate H.
Qed.

Lemma X15_pull_delivers_size_witness :
  let ump := Samples.two_block_mount in
  let cur := {| block := 0; offset := 4 |} in
  exists cur' out l',
    sqsh_metadata_get ump cur true 20 [] = (Ret (cur', out), l')
    /\ cur' = {| block := 18; offset := 8 |}
    /\ Z.of_nat (length out) = 20.
Proof.
  intros ump cur. eexists. eexists. eexists.
  split; [vm_compute; reflexivity | split; [reflexivity | ]].
  eapply (X15_pull_delivers_size ump cur true 20 []).
  - apply no_decompressor_honest. reflexivity.
  - split; [cbn; lia | ].
    intros dsz blk H. vm_compute in H. apply Ret_inj in H.
    apply pair_equal_spec in H. destruct H as [_ <-]. vm_compute. discriminate.
  - lia.
  - vm_compute. reflexivity.
Defined.

(** *** Splitting a pull *)

Lemma firstn_plus {A} (a b : nat) (l : list A) :
  firstn (a + b) l = firstn a l ++ firstn b (skipn a l).
Proof.
  revert l. induction a as [ | a IH]; intros [ | x l]; cbn;
    try reflexivity.
  - rewrite firstn_nil. reflexivity.
  - rewrite IH. reflexivity.
Qed.

Lemma copied_split buf blk off a b :
  0 <= off -> 0 <= a -> 0 <= b ->
  copied buf blk off (a + b)
  = copied buf blk off a ++ copied buf blk (off + a) b.
Proof.
  intros Ho Ha Hb. unfold copied. destruct buf; [ | reflexivity].
  rewrite !Z2Nat.inj_add by lia. rewrite firstn_plus, skipn_skipn.
  rewrite (Nat.add_comm (Z.to_nat a)). reflexivity.
Qed.

Lemma read_transfer ump pos l dsz blk l1 la :
  sqsh_metadata_read ump pos l = (Ret (dsz, blk), l1) ->
  exists lb, sqsh_metadata_read ump pos la = (Ret (dsz, blk), lb).
Proof.
  intros H. pose proof (metadata_read_any_log ump pos la l) as E.
  rewrite H in E. destruct (sqsh_metadata_read ump pos la) as [r lb].
  cbn [fst] in E. subst r. exists lb. reflexivity.
Qed.

Lemma body_of_read ump buf st l dsz blk l1 :
  sqsh_metadata_read ump (g_pos st) l = (Ret (dsz, blk), l1) ->
  metadata_get_body ump buf st l = (Ret (get_advance buf st dsz blk), l1).
Proof.
  intros Hr. unfold metadata_get_body.
  rewrite (bind_Ret _ _ _ _ _ Hr). reflexivity.
Qed.

Lemma advance_prefix buf p st dsz blk :
  get_advance buf (prefix_out p st) dsz blk
  = prefix_out p (get_advance buf st dsz blk).
Proof.
  unfold get_advance, prefix_out, get_take.
  cbn [g_pos g_cur g_size g_out].
  destruct buf; [rewrite app_assoc | ]; reflexivity.
Qed.

Lemma enough_same_pos ump fuel st st' :
  g_pos st = g_pos st' -> enough_fuel ump fuel st -> enough_fuel ump fuel st'.
Proof. unfold enough_fuel. intros <-. tauto. Qed.

Lemma bind_body_fail {B} ump buf st (k : get_state -> M B) l :
  fst (sqsh_metadata_read ump (g_pos st) l) = Err ->
  fst (bind (metadata_get_body ump buf st) k l) = Err.
Proof.
  unfold metadata_get_body, bind.
  destruct (sqsh_metadata_read ump (g_pos st) l) as [[[dsz blk] | | ] la];
    cbn [fst]; intros H; try discriminate H; reflexivity.
Qed.

(** Bytes already stored do not influence what the loop does next. *)
Lemma loop_prefix ump buf p :
  image_addressable ump ->
  forall f1 f2 st l1 l2,
    enough_fuel ump f1 st -> enough_fuel ump f2 st ->
    fst (metadata_get_loop ump buf f2 (prefix_out p st) l2)
    = map_res (prefix_out p) (fst (metadata_get_loop ump buf f1 st l1)).
Proof.
  intros Himg. induction f1 as [ | f1 IH]; intros f2 st l1 l2 H1 H2.
  - destruct H1 as [H1 _]. lia.
  - destruct f2 as [ | f2]; [destruct H2 as [H2 _]; lia | ].
    cbn [metadata_get_loop].
    change (g_size (prefix_out p st)) with (g_size st).
    destruct (g_size st >? 0); [ | reflexivity].
    pose proof (metadata_read_any_log ump (g_pos st) l2 l1) as E.
    pose proof (metadata_read_not_fuel ump (g_pos st) l1) as Hnf.
    destruct (sqsh_metadata_read ump (g_pos st) l1)
      as [[[dsz blk] | | ] la] eqn:Hr1; cbn [fst] in E, Hnf.
    + destruct (read_transfer _ _ _ _ _ _ l2 Hr1) as (lb & Hr2).
      rewrite (bind_Ret _ _ _ _ _ (body_of_read ump buf st l1 dsz blk la Hr1)).
      rewrite (bind_Ret _ _ _ _ _
                 (body_of_read ump buf (prefix_out p st) l2 dsz blk lb Hr2)).
      rewrite advance_prefix.
      apply IH.
      * eapply body_enough; [exact Himg | exact H1 | ].
        apply body_of_read. exact Hr1.
      * eapply body_enough; [exact Himg | exact H2 | ].
        apply body_of_read. exact Hr1.
    + rewrite (bind_body_fail ump buf st) by (rewrite Hr1; reflexivity).
      rewrite (bind_body_fail ump buf (prefix_out p st)) by exact E.
      reflexivity.
    + congruence.
Qed.

Lemma get_Ret_inv ump cur buf n l c o l' :
  sqsh_metadata_get ump cur buf n l = (Ret (c, o), l') ->
  exists st,
    metadata_get_loop ump buf (S (length (image ump))) (get_init cur n) l
    = (Ret st, l')
    /\ g_cur st = c /\ g_out st = o.
Proof.
  unfold sqsh_metadata_get. intros H.
  apply bind_Ret_inv in H. destruct H as (st & l1 & Hloop & H).
  unfold ret in H. apply pair_equal_spec in H. destruct H as [H <-].
  apply Ret_inj in H. apply pair_equal_spec in H. destruct H as [<- <-].
  exists st. repeat split. exact Hloop.
Qed.

(** A pull of [size + m] bytes, compared with a pull of [size] bytes that is
    followed by a pull of [m] bytes from where the first one stopped. *)
Lemma loop_split ump buf m :
  image_addressable ump -> 0 < m ->
  forall f st l st1 l1 c2 o2 l2 F la,
    0 < g_size st -> g_size st + m < 2 ^ 64 ->
    loop_ready ump st ->
    metadata_get_loop ump buf f st l = (Ret st1, l1) ->
    sqsh_metadata_get ump (g_cur st1) buf m l1 = (Ret (c2, o2), l2) ->
    enough_fuel ump F st ->
    exists stf,
      fst (metadata_get_loop ump buf F (with_size st (g_size st + m)) la)
      = Ret stf
      /\ g_cur stf = c2 /\ g_out stf = g_out st1 ++ o2.
Proof.
  intros Himg Hm.
  induction f as [ | f IH];
    intros st l st1 l1 c2 o2 l2 F la Hpos Hfit Hready Hn Hsecond HF;
    cbn [metadata_get_loop] in Hn;
    rewrite (proj2 (Z.gtb_lt _ _) Hpos) in Hn; [discriminate Hn | ].
  apply bind_Ret_inv in Hn. destruct Hn as (sta & la1 & Hbody & Hrest).
  apply body_Ret_inv in Hbody. destruct Hbody as (dsz & blk & Hr & ->).
  destruct (Hready Hpos) as (Hp & Ho & Hin).
  specialize (Hin _ _ _ _ Hr).
  pose proof (metadata_read_inv _ _ _ _ _ _ Hr) as (_ & _ & _ & Hb & _).
  destruct F as [ | F]; [destruct HF as [HF _]; lia | ].
  destruct (read_transfer _ _ _ _ _ _ la Hr) as (lb & Hrb).
  set (stp := with_size st (g_size st + m)) in *.
  assert (Hstep : metadata_get_loop ump buf (S F) stp la
                  = metadata_get_loop ump buf F (get_advance buf stp dsz blk) lb).
  { cbn [metadata_get_loop]. change (g_size stp) with (g_size st + m).
    rewrite (proj2 (Z.gtb_lt _ _)) by lia.
    rewrite (bind_Ret _ _ _ _ _ (body_of_read ump buf stp la dsz blk lb Hrb)).
    reflexivity. }
  rewrite Hstep.
  assert (HF' : enough_fuel ump F (get_advance buf stp dsz blk)).
  { eapply body_enough; [exact Himg | | apply (body_of_read ump buf stp la); exact Hrb].
    exact HF. }
  destruct (Z_lt_ge_dec (g_size st) (b_size blk - offset (g_cur st)))
    as [Hlt | Hge].
  - (* the first pull ends inside this block *)
    rewrite (advance_inside buf st dsz blk) in Hrest by lia.
    rewrite loop_done in Hrest by reflexivity.
    apply pair_equal_spec in Hrest. destruct Hrest as [Hst1 ->].
    apply Ret_inj in Hst1. subst st1. cbn [g_cur g_out] in *.
    set (c1 := {| block := block (g_cur st);
                  offset := offset (g_cur st) + g_size st |}) in *.
    apply get_Ret_inv in Hsecond. destruct Hsecond as (st2 & Hl2 & <- & <-).
    cbn [metadata_get_loop] in Hl2. change (g_size (get_init c1 m)) with m in Hl2.
    rewrite (proj2 (Z.gtb_lt _ _) Hm) in Hl2.
    destruct (read_transfer _ _ _ _ _ _ l1 Hr) as (lc & Hrc).
    rewrite Hp in Hrc.
    pose proof (body_of_read ump buf (get_init c1 m) l1 dsz blk lc Hrc) as Hb2.
    rewrite (bind_Ret _ _ _ _ _ Hb2) in Hl2.
    assert (Heq : get_advance buf stp dsz blk
                  = prefix_out (g_out st ++ copied buf blk (offset (g_cur st))
                                              (g_size st))
                      (get_advance buf (get_init c1 m) dsz blk)).
    { destruct (Z_lt_ge_dec (g_size st + m) (b_size blk - offset (g_cur st)))
        as [Hlt2 | Hge2].
      - rewrite (advance_inside buf stp dsz blk)
          by (subst stp; cbn [with_size g_cur g_size]; lia).
        rewrite (advance_inside buf (get_init c1 m) dsz blk)
          by (subst c1; cbn [get_init g_cur g_size offset]; lia).
        subst stp c1. unfold prefix_out.
        cbn [with_size get_init g_pos g_cur g_size g_out block offset].
        rewrite Hp, Z.add_assoc, copied_split by lia.
        rewrite app_nil_l, app_assoc. reflexivity.
      - rewrite (advance_to_end buf stp dsz blk)
          by (subst stp; cbn [with_size g_cur g_size]; lia).
        rewrite (advance_to_end buf (get_init c1 m) dsz blk)
          by (subst c1; cbn [get_init g_cur g_size offset]; lia).
        subst stp c1. unfold prefix_out.
        cbn [with_size get_init g_pos g_cur g_size g_out block offset].
        rewrite Hp.
        replace (b_size blk - offset (g_cur st))
          with (g_size st + (b_size blk - (offset (g_cur st) + g_size st)))
          at 2 by ring.
        rewrite copied_split by lia.
        rewrite app_nil_l, app_assoc.
        f_equal. ring. }
    rewrite Heq in HF' |- *.
    assert (Hlen : enough_fuel ump (length (image ump))
                     (get_advance buf (get_init c1 m) dsz blk)).
    { eapply body_enough; [exact Himg | apply init_enough | exact Hb2]. }
    rewrite (loop_prefix ump buf _ Himg (length (image ump)) F _ lc lb Hlen
               (enough_same_pos _ _ _ _ eq_refl HF')).
    rewrite Hl2. cbn [fst map_res].
    eexists. split; [reflexivity | split; reflexivity].
  - destruct (Z.eq_dec (g_size st) (b_size blk - offset (g_cur st)))
      as [Heq0 | Hne].
    + (* the first pull ends exactly at the end of this block *)
      rewrite (advance_to_end buf st dsz blk) in Hrest by lia.
      rewrite loop_done in Hrest by (cbn [g_size]; lia).
      apply pair_equal_spec in Hrest. destruct Hrest as [Hst1 ->].
      apply Ret_inj in Hst1. subst st1. cbn [g_cur g_out] in *.
      set (c1 := {| block := s64 (g_pos st + dsz); offset := 0 |}) in *.
      apply get_Ret_inv in Hsecond. destruct Hsecond as (st2 & Hl2 & <- & <-).
      assert (Heq : get_advance buf stp dsz blk
                    = prefix_out (g_out st
                                    ++ copied buf blk (offset (g_cur st))
                                         (b_size blk - offset (g_cur st)))
                        (get_init c1 m)).
      { rewrite (advance_to_end buf stp dsz blk)
          by (subst stp; cbn [with_size g_cur g_size]; lia).
        subst stp c1. unfold prefix_out.
        cbn [with_size get_init g_pos g_cur g_size g_out block offset].
        rewrite app_nil_r. f_equal. lia. }
      rewrite Heq in HF' |- *.
      rewrite (loop_prefix ump buf _ Himg (S (length (image ump))) F _ l1 lb
                 (init_enough ump c1 m)
                 (enough_same_pos _ _ _ _ eq_refl HF')).
      rewrite Hl2. cbn [fst map_res].
      eexists. split; [reflexivity | split; reflexivity].
    + (* the first pull goes on into the next block *)
      rewrite (advance_to_end buf st dsz blk) in Hrest by lia.
      set (sta := {| g_pos := s64 (g_pos st + dsz);
                     g_cur := {| block := s64 (g_pos st + dsz); offset := 0 |};
                     g_size := g_size st - (b_size blk - offset (g_cur st));
                     g_out := g_out st
                              ++ copied buf blk (offset (g_cur st))
                                   (b_size blk - offset (g_cur st)) |}) in *.
      assert (Heq : get_advance buf stp dsz blk
                    = with_size sta (g_size sta + m)).
      { rewrite (advance_to_end buf stp dsz blk)
          by (subst stp; cbn [with_size g_cur g_size]; lia).
        subst stp sta. unfold with_size.
        cbn [g_pos g_cur g_size g_out]. f_equal. lia. }
      rewrite Heq in HF' |- *.
      apply (IH sta la1 st1 l1 c2 o2 l2 F lb).
      * subst sta; cbn [g_size]; lia.
      * subst sta; cbn [g_size]; lia.
      * intros _. subst sta; cbn [g_pos g_cur block offset].
        split; [reflexivity | split; [lia | ]].
        intros dsz' blk' lx ly Hr'. apply metadata_read_inv in Hr'. lia.
      * exact Hrest.
      * exact Hsecond.
      * exact (enough_same_pos _ _ _ _ eq_refl HF').
Qed.

(** X16.  Pulls compose: on a cursor that lies in its block (and with a
    decompressor that keeps its contract, so that every copy stays inside
    its buffer), pulling [n] bytes and then [m] bytes from where the first
    pull left the cursor ends at the same cursor, and stores the same
    bytes, as pulling [n + m] bytes at once, across any number of block
    boundaries.  (Only the reads differ: the split pull may read the block
    at the seam twice.) *)
Theorem X16_pull_splits (ump : sqsh_mount) (cur : sqsh_block_run)
    (buf : bool) (n m : Z) (l : io_log)
    (c1 : sqsh_block_run) (o1 : list byte) (l1 : io_log)
    (c2 : sqsh_block_run) (o2 : list byte) (l2 : io_log) :
  image_addressable ump ->
  decompressor_honest ump ->
  cursor_in_block ump cur ->
  0 <= n -> 0 <= m -> n + m < 2 ^ 64 ->
  sqsh_metadata_get ump cur buf n l = (Ret (c1, o1), l1) ->
  sqsh_metadata_get ump c1 buf m l1 = (Ret (c2, o2), l2) ->
  fst (sqsh_metadata_get ump cur buf (n + m) l) = Ret (c2, o1 ++ o2).
Proof.
  intros Himg _ Hin Hn Hm Hfit H1 H2.
  destruct (Z.eq_dec m 0) as [-> | Hm0].
  - change (sqsh_metadata_get ump c1 buf 0 l1) with (Ret (c1, @nil byte), l1) in H2.
    apply pair_equal_spec in H2. destruct H2 as [H2 _].
    apply Ret_inj in H2. apply pair_equal_spec in H2. destruct H2 as [<- <-].
    rewrite Z.add_0_r, H1, app_nil_r. reflexivity.
  - destruct (Z.eq_dec n 0) as [-> | Hn0].
    + change (sqsh_metadata_get ump cur buf 0 l) with (Ret (cur, @nil byte), l) in H1.
      apply pair_equal_spec in H1. destruct H1 as [H1 <-].
      apply Ret_inj in H1. apply pair_equal_spec in H1. destruct H1 as [<- <-].
      rewrite Z.add_0_l, H2. reflexivity.
    + apply get_Ret_inv in H1. destruct H1 as (st1 & Hloop & <- & <-).
      destruct (loop_split ump buf m Himg ltac:(lia)
                  (S (length (image ump))) (get_init cur n) l st1
                  l1 c2 o2 l2 (S (length (image ump))) l)
        as (stf & Hf & Hc & Ho).
      * cbn [get_init g_size]. lia.
      * cbn [get_init g_size]. lia.
      * apply init_ready. exact Hin.
      * exact Hloop.
      * exact H2.
      * apply init_enough.
      * change (with_size (get_init cur n) (g_size (get_init cur n) + m))
          with (get_init cur (n + m)) in Hf.
        unfold sqsh_metadata_get, bind.
        destruct (metadata_get_loop ump buf (S (length (image ump)))
                    (get_init cur (n + m)) l) as [r lf].
        cbn [fst] in Hf. subst r. unfold ret. cbn [fst].
        rewrite Hc, Ho. reflexivity.
Qed.

(** From offset 4 of the first block: 14 bytes (to offset 2 of the second
    block), then 6 more, against 20 at once. *)
Lemma X16_pull_splits_witness :
  let ump := Samples.two_block_mount in
  let cur := {| block := 0; offset := 4 |} in
  exists c1 o1 l1 c2 o2 l2,
    sqsh_metadata_get ump cur true 14 [] = (Ret (c1, o1), l1)
    /\ c1 = {| block := 18; offset := 2 |}
    /\ sqsh_metadata_get ump c1 true 6 l1 = (Ret (c2, o2), l2)
    /\ c2 = {| block := 18; offset := 8 |}
    /\ fst (sqsh_metadata_get ump cur true (14 + 6) []) = Ret (c2, o1 ++ o2).
Proof.
  intros ump cur. do 6 eexists.
  split; [vm_compute; reflexivity | split; [reflexivity | ]].
  split; [vm_compute; reflexivity | split; [reflexivity | ]].
  eapply (X16_pull_splits ump cur true 14 6 []).
  - unfold image_addressable. vm_compute. reflexivity.
  - apply no_decompressor_honest. reflexivity.
  - split; [cbn; lia | ].
    intros dsz blk H. vm_compute in H. apply Ret_inj in H.
    apply pair_equal_spec in H. destruct H as [_ <-]. vm_compute. discriminate.
  - lia.
  - lia.
  - lia.
  - vm_compute. reflexivity.
  - vm_compute. reflexivity.
Defined.

(** *** A pull that discards *)

Lemma advance_erase st dsz blk :
  get_advance false (erase_out st) dsz blk
  = erase_out (get_advance true st dsz blk).
Proof. reflexivity. Qed.

Lemma loop_erase ump :
  forall fuel st l,
    metadata_get_loop ump false fuel (erase_out st) l
    = (map_res erase_out (fst (metadata_get_loop ump true fuel st l)),
       snd (metadata_get_loop ump true fuel st l)).
Proof.
  induction fuel as [ | fuel IH]; intros st l; cbn [metadata_get_loop];
    change (g_size (erase_out st)) with (g_size st);
    destruct (g_size st >? 0); try reflexivity.
  unfold bind, metadata_get_body.
  change (g_pos (erase_out st)) with (g_pos st).
  unfold bind.
  destruct (sqsh_metadata_read ump (g_pos st) l) as [[[dsz blk] | | ] l1];
    try reflexivity.
  unfold ret. rewrite advance_erase. apply IH.
Qed.

(** X17.  A pull with a NULL destination walks the metadata stream exactly
    as the same pull with a buffer does: the same backing reads, the same
    outcome and the same final cursor; it only stores nothing. *)
Theorem X17_null_pull_same_cursor (ump : sqsh_mount) (cur : sqsh_block_run)
    (size : Z) (l : io_log) :
  sqsh_metadata_get ump cur false size l
  = (map_res (fun r => (fst r, [])) (fst (sqsh_metadata_get ump cur true size l)),
     snd (sqsh_metadata_get ump cur true size l)).
Proof.
  unfold sqsh_metadata_get, bind.
  change (get_init cur size) with (erase_out (get_init cur size)) at 1.
  rewrite loop_erase.
  destruct (metadata_get_loop ump true (S (length (image ump)))
              (get_init cur size) l) as [[st | | ] l1]; reflexivity.
Qed.

(** *** The cursor a pull leaves behind *)

Lemma read_block_size_nonneg ump pos dsz blk :
  fst (sqsh_metadata_read ump pos []) = Ret (dsz, blk) -> 0 <= b_size blk.
Proof.
  intros H. destruct (sqsh_metadata_read ump pos []) as [r lb] eqn:Hr.
  cbn [fst] in H. subst r. apply metadata_read_inv in Hr. lia.
Qed.

Lemma loop_leaves_cursor_in_block ump buf :
  forall fuel st l st' l',
    0 < g_size st < 2 ^ 64 ->
    loop_ready ump st ->
    metadata_get_loop ump buf fuel st l = (Ret st', l') ->
    0 <= offset (g_cur st')
    /\ forall dsz blk,
         fst (sqsh_metadata_read ump (block (g_cur st')) []) = Ret (dsz, blk) ->
         offset (g_cur st') <= b_size blk
         /\ (0 < b_size blk -> offset (g_cur st') < b_size blk).
Proof.
  induction fuel as [ | fuel IH]; intros st l st' l' Hs Hready H;
    cbn [metadata_get_loop] in H;
    rewrite (proj2 (Z.gtb_lt _ _)) in H by lia; [discriminate H | ].
  apply bind_Ret_inv in H. destruct H as (st1 & l1 & Hbody & Hloop).
  apply body_Ret_inv in Hbody. destruct Hbody as (dsz & blk & Hr & ->).
  destruct (Hready ltac:(lia)) as (Hp & Ho & Hin).
  specialize (Hin _ _ _ _ Hr).
  pose proof (metadata_read_inv _ _ _ _ _ _ Hr) as (_ & _ & _ & Hb & _).
  destruct (Z_lt_ge_dec (g_size st) (b_size blk - offset (g_cur st)))
    as [Hlt | Hge].
  - rewrite (advance_inside buf st dsz blk) in Hloop by lia.
    rewrite loop_done in Hloop by reflexivity.
    apply pair_equal_spec in Hloop. destruct Hloop as [Hst _].
    apply Ret_inj in Hst. subst st'. cbn [g_cur block offset].
    split; [lia | ]. intros dsz' blk' Hr'.
    pose proof (metadata_read_any_log ump (g_pos st) [] l) as E.
    rewrite Hr, Hp, Hr' in E. cbn [fst] in E.
    apply Ret_inj in E. apply pair_equal_spec in E. destruct E as [_ ->].
    lia.
  - destruct (Z.eq_dec (g_size st) (b_size blk - offset (g_cur st)))
      as [Heq | Hne].
    + rewrite (advance_to_end buf st dsz blk) in Hloop by lia.
      rewrite loop_done in Hloop by (cbn [g_size]; lia).
      apply pair_equal_spec in Hloop. destruct Hloop as [Hst _].
      apply Ret_inj in Hst. subst st'. cbn [g_cur block offset].
      split; [lia | ]. intros dsz' blk' Hr'.
      apply read_block_size_nonneg in Hr'. lia.
    + rewrite (advance_to_end buf st dsz blk) in Hloop by lia.
      apply IH in Hloop; [exact Hloop | cbn [g_size]; lia | ].
      intros _. cbn [g_pos g_cur block offset].
      split; [reflexivity | split; [lia | ]].
      intros dsz' blk' lx ly Hr'. apply metadata_read_inv in Hr'. lia.
Qed.

(** X18.  A successful pull from a cursor that lies in its block leaves a
    cursor that lies in its block, so pulls can be chained; and after a pull
    of at least one byte the cursor never rests at the end of a non-empty
    block: either it stands strictly inside its block or at offset 0 of the
    block that follows. *)
Theorem X18_pull_keeps_cursor_in_block (ump : sqsh_mount)
    (cur : sqsh_block_run) (buf : bool) (size : Z) (l : io_log)
    (cur' : sqsh_block_run) (out : list byte) (l' : io_log) :
  cursor_in_block ump cur ->
  0 <= size < 2 ^ 64 ->
  sqsh_metadata_get ump cur buf size l = (Ret (cur', out), l') ->
  cursor_in_block ump cur'
  /\ (0 < size ->
      forall dsz blk,
        fst (sqsh_metadata_read ump (block cur') []) = Ret (dsz, blk) ->
        0 < b_size blk -> offset cur' < b_size blk).
Proof.
  intros Hin Hs H.
  destruct (Z.eq_dec size 0) as [-> | Hne].
  - change (sqsh_metadata_get ump cur buf 0 l) with (Ret (cur, @nil byte), l) in H.
    apply pair_equal_spec in H. destruct H as [H _].
    apply Ret_inj in H. apply pair_equal_spec in H. destruct H as [<- _].
    split; [exact Hin | lia].
  - apply get_Ret_inv in H. destruct H as (st & Hloop & <- & _).
    apply loop_leaves_cursor_in_block in Hloop.
    + destruct Hloop as [Ho Hb]. split.
      * split; [exact Ho | ]. intros dsz blk Hr. apply (Hb dsz blk Hr).
      * intros _ dsz blk Hr. apply (Hb dsz blk Hr).
    + cbn [get_init g_size]. lia.
    + apply init_ready. exact Hin.
Qed.

Lemma X18_pull_keeps_cursor_in_block_witness :
  let ump := Samples.two_block_mount in
  let cur := {| block := 0; offset := 4 |} in
  exists cur' out l',
    sqsh_metadata_get ump cur true 12 [] = (Ret (cur', out), l')
    /\ cur' = {| block := 18; offset := 0 |}
    /\ cursor_in_block ump cur'
    /\ (0 < 12 ->
        forall dsz blk,
          fst (sqsh_metadata_read ump (block cur') []) = Ret (dsz, blk) ->
          0 < b_size blk -> offset cur' < b_size blk).
Proof.
  intros ump cur. do 3 eexists.
  split; [vm_compute; reflexivity | split; [reflexivity | ]].
  eapply (X18_pull_keeps_cursor_in_block ump cur true 12 []).
  - split; [cbn; lia | ].
    intros dsz blk H. vm_compute in H. apply Ret_inj in H.
    apply pair_equal_spec in H. destruct H as [_ <-]. vm_compute. discriminate.
  - lia.
  - vm_compute. reflexivity.
Defined.

(** *** A record that straddles two blocks *)

Lemma loop_unroll ump buf fuel st l dsz blk l1 :
  0 < g_size st ->
  sqsh_metadata_read ump (g_pos st) l = (Ret (dsz, blk), l1) ->
  metadata_get_loop ump buf (S fuel) st l
  = metadata_get_loop ump buf fuel (get_advance buf st dsz blk) l1.
Proof.
  intros Hs Hr. cbn [metadata_get_loop].
  rewrite (proj2 (Z.gtb_lt _ _) Hs).
  rewrite (bind_Ret _ _ _ _ _ (body_of_read ump buf st l dsz blk l1 Hr)).
  reflexivity.
Qed.

(** X19.  A pull that needs more than the current block still holds takes
    the rest of that block and continues at the start of the next one: when
    the [rest] bytes left in the block at the cursor are at most [n] and
    the remaining [n - rest] bytes end inside the following block, the pull
    returns the cursor [(block + footprint, n - rest)] and, through a
    non-NULL [buf], the tail of the first block followed by the head of the
    second (the decompressor keeping its contract, every copy stays inside
    its buffer). *)
Theorem X19_pull_across_boundary (ump : sqsh_mount) (cur : sqsh_block_run)
    (buf : bool) (n : Z) (l : io_log)
    (dsz : Z) (blk : sqsh_block) (dsz2 : Z) (blk2 : sqsh_block) :
  image_addressable ump ->
  decompressor_honest ump ->
  fst (sqsh_metadata_read ump (block cur) []) = Ret (dsz, blk) ->
  fst (sqsh_metadata_read ump (block cur + dsz) []) = Ret (dsz2, blk2) ->
  0 <= offset cur <= b_size blk ->
  let rest := b_size blk - offset cur in
  0 < n < 2 ^ 64 -> rest <= n -> n - rest < b_size blk2 ->
  exists l',
    sqsh_metadata_get ump cur buf n l
    = (Ret ({| block := block cur + dsz; offset := n - rest |},
            copied buf blk (offset cur) rest ++ copied buf blk2 0 (n - rest)),
       l').
Proof.
  intros Himg _ H1 H2 Ho rest Hn Hrest Hfit.
  pose proof (metadata_read_at_log ump (block cur) dsz blk l H1) as Hr1.
  set (l1 := l ++ [(block cur, 2);
                   (s64 (block cur + 2), on_disk_size ump (block cur))]) in *.
  pose proof (metadata_read_in_image _ _ _ _ _ _ Himg Hr1) as (Hp & Hd & Hle).
  pose proof (metadata_read_inv _ _ _ _ _ _ Hr1) as (_ & _ & _ & Hb & _).
  pose proof (metadata_read_at_log ump (block cur + dsz) dsz2 blk2 l1 H2) as Hr2.
  pose proof (metadata_read_inv _ _ _ _ _ _ Hr2) as (_ & _ & _ & Hb2 & _).
  assert (Hs64 : s64 (block cur + dsz) = block cur + dsz)
    by (unfold image_addressable in Himg; apply s64_small; lia).
  assert (Hloop : exists stf l',
             metadata_get_loop ump buf (S (length (image ump)))
               (get_init cur n) l = (Ret stf, l')
             /\ g_cur stf = {| block := block cur + dsz; offset := n - rest |}
             /\ g_out stf = copied buf blk (offset cur) rest
                            ++ copied buf blk2 0 (n - rest)).
  { rewrite (loop_unroll ump buf _ (get_init cur n) l dsz blk l1)
      by (cbn [get_init g_size g_pos]; first [lia | assumption]).
    rewrite (advance_to_end buf (get_init cur n) dsz blk)
      by (cbn [get_init g_cur g_size]; lia).
    cbn [get_init g_pos g_cur g_size g_out]. rewrite Hs64. fold rest.
    rewrite app_nil_l.
    destruct (Z.eq_dec n rest) as [E | N].
    - rewrite loop_done by (cbn [g_size]; lia).
      eexists. eexists. split; [reflexivity | ]. cbn [g_cur g_out].
      rewrite E, Z.sub_diag.
      replace (copied buf blk2 0 0) with (@nil byte)
        by (unfold copied; destruct buf; reflexivity).
      rewrite app_nil_r. split; reflexivity.
    - set (s1 := {| g_pos := block cur + dsz;
                    g_cur := {| block := block cur + dsz; offset := 0 |};
                    g_size := n - rest;
                    g_out := copied buf blk (offset cur) rest |}).
      assert (He : enough_fuel ump (length (image ump)) s1).
      { unfold enough_fuel, s1; cbn [g_pos]. split; lia. }
      assert (He' : enough_fuel ump (S (length (image ump))) s1).
      { unfold enough_fuel, s1; cbn [g_pos]. split; lia. }
      rewrite (metadata_get_loop_fuel_irrelevant ump buf Himg _ _ s1 l1 He He').
      rewrite (loop_unroll ump buf _ s1 l1 dsz2 blk2 _)
        by (unfold s1; cbn [g_size g_pos]; first [lia | exact Hr2]).
      rewrite (advance_inside buf s1 dsz2 blk2)
        by (unfold s1; cbn [g_cur g_size offset]; lia).
      rewrite loop_done by reflexivity.
      eexists. eexists. split; [reflexivity | ].
      unfold s1. cbn [g_cur g_out g_size block offset]. split; reflexivity. }
  destruct Hloop as (stf & l' & Hloop & Hc & Hout).
  exists l'. unfold sqsh_metadata_get.
  rewrite (bind_Ret _ _ _ _ _ Hloop). unfold ret. rewrite Hc, Hout.
  reflexivity.
Qed.

(** From offset 10 of the 16-byte block: 6 bytes are left, 10 are wanted. *)
Lemma X19_pull_across_boundary_witness :
  let ump := Samples.two_block_mount in
  let cur := {| block := 0; offset := 10 |} in
  let blk := {| b_data := repeat x01 16; b_size := 16 |} in
  let blk2 := {| b_data := repeat x02 24; b_size := 24 |} in
  exists l',
    sqsh_metadata_get ump cur true 10 []
    = (Ret ({| block := block cur + 18; offset := 10 - (16 - 10) |},
            copied true blk (offset cur) (16 - 10)
              ++ copied true blk2 0 (10 - (16 - 10))),
       l').
Proof.
  intros ump cur blk blk2.
  apply (X19_pull_across_boundary ump cur true 10 [] 18 blk 26 blk2).
  - unfold image_addressable. vm_compute. reflexivity.
  - apply no_decompressor_honest. reflexivity.
  - vm_compute. reflexivity.
  - vm_compute. reflexivity.
  - cbn. lia.
  - lia.
  - cbn. lia.
  - cbn. lia.
Defined.
